(** * Disk monitor utility: sampling, aggregation and run control

    A shallow embedding of [disk_monitor_gui.py] (the threaded worker that
    accumulates per-pid I/O deltas, and the Tkinter controller around it) and
    of [disk_monitor.py] (the console script that sums raw cumulative counters
    per process name), followed by the properties of the specification that
    were checked against them.

    Conventions of the embedding.
    - Python [int] is [Z].  A Python [float] is given by the number that
      it holds: an integer for the accumulators of the worker, which only
      ever receive integer increments, and a rational [Q] for the megabyte
      figures ([x / (1024 * 1024)]).  Where the source rounds, the rounding
      is written out with [round_f64].  [loop_body_float] is the loop of
      the worker with its float accumulators; [loop_body] is the same loop
      with sums that are not rounded, and the two agree as long as no total
      exceeds 2^53 ([observe_float_exact]).
    - A Python [dict] whose iteration order is observable (the totals, the
      result handed over the queue) is an association list in insertion
      order; [prev_io], which is only looked up, is a [gmap].
    - An exception is an explicit [Raises] outcome.
    - [time.time()] and [psutil.process_iter] are inputs supplied by the
      environment at the step that calls them. *)

From Stdlib Require Import ZArith QArith Qminmax Sorted.
From Stdlib Require Floats Uint63.
From stdpp Require Import gmap strings list pretty.

Local Open Scope Z_scope.

(** ** Python helpers *)

Inductive exn : Type :=
  | NoSuchProcess
  | AccessDenied
  | OtherException (what : string).

Inductive outcome (A : Type) : Type :=
  | Returns (a : A)
  | Raises (e : exn).
Arguments Returns {A} a.
Arguments Raises {A} e.

(** Insertion-ordered dictionaries. *)
Section Dict.
Context {K V : Type} `{EqDecision K}.

Fixpoint dict_get (k : K) (d : list (K * V)) : option V :=
  match d with
  | [] => None
  | (k', v) :: d' => if decide (k' = k) then Some v else dict_get k d'
  end.

(** [d[k] = v]: an existing key keeps its position, a new key goes last. *)
Fixpoint dict_set (k : K) (v : V) (d : list (K * V)) : list (K * V) :=
  match d with
  | [] => [(k, v)]
  | (k', v') :: d' =>
      if decide (k' = k) then (k, v) :: d' else (k', v') :: dict_set k v d'
  end.

(** [d[k] = f(d[k])] on a [defaultdict]: a missing key is first created
    with the default value. *)
Definition defaultdict_update (dflt : V) (f : V -> V) (k : K)
    (d : list (K * V)) : list (K * V) :=
  match dict_get k d with
  | Some v => dict_set k (f v) d
  | None => dict_set k (f dflt) d
  end.
End Dict.

(** [l[:n]] for a Python list: a negative [n] counts from the end. *)
Definition slice_to {A : Type} (n : Z) (l : list A) : list A :=
  if 0 <=? n then take (Z.to_nat n) l
  else take (length l - Z.to_nat (- n))%nat l.

(** [l.sort(key=..., reverse=True)]: the sort is stable, and with
    [reverse=True] elements with equal keys still keep their original
    order, so the result is the one of this insertion sort. *)
Section Sort.
Context {A : Type} (key : A -> Q).

Fixpoint insert_desc (x : A) (l : list A) : list A :=
  match l with
  | [] => [x]
  | y :: l' =>
      if Qle_bool (key y) (key x) then x :: y :: l'
      else y :: insert_desc x l'
  end.

Definition sort_reverse (l : list A) : list A := foldr insert_desc [] l.
End Sort.

(** A Python [float] is an IEEE 754 binary64 number.  [round_f64 n] is
    the float nearest to the integer [n], ties going to the even
    significand: what [float(n)] returns, and what an addition of floats
    whose exact sum is [n] returns.  Integers up to 2^53 in absolute
    value are floats; beyond, the 53 leading bits are kept.  The exponent
    range of the format (an overflow from about 2^1024) is not modelled:
    the counters of psutil are unsigned 64-bit integers. *)
Definition round_f64 (n : Z) : Z :=
  let a := Z.abs n in
  if a <=? 2 ^ 53 then n
  else
    let e := Z.log2 a - 52 in
    let q := Z.shiftr a e in
    let r := a - Z.shiftl q e in
    let half := Z.shiftl 1 (e - 1) in
    let q' := if (half <? r) || ((r =? half) && Z.odd q) then q + 1 else q in
    Z.sgn n * Z.shiftl q' e.

(** [x + d] for a float [x] and an int [d]: the int is converted to a
    float, then the floats are added. *)
Definition float_add_int (x d : Z) : Z := round_f64 (x + round_f64 d).

(** The floats of the kernel are binary64 numbers.  [float_of_int n] is
    [float(n)] for 0 <= n < 2^63, and [Z_of_float f] is the integer that
    [f] holds, rounded down ([None] for an infinity or a NaN).  They
    serve to compare [round_f64] and [float_add_int] with the format
    itself. *)
Definition float_of_int (n : Z) : PrimFloat.float :=
  PrimFloat.of_uint63 (Uint63.of_Z n).

Definition Z_of_float (f : PrimFloat.float) : option Z :=
  match FloatOps.Prim2SF f with
  | SpecFloat.S754_zero _ => Some 0
  | SpecFloat.S754_finite s m e =>
      let v := if 0 <=? e then Z.pos m * 2 ^ e else Z.pos m / 2 ^ (- e) in
      Some (if s then - v else v)
  | _ => None
  end.

(** ** What psutil reports *)

(** [proc.io_counters()]: cumulative bytes read and written. *)
Record pio : Type := { read_bytes : Z; write_bytes : Z }.

(** One element of [psutil.process_iter(['pid', 'name'])] together with the
    outcome of calling [io_counters()] on it during the tick. *)
Record Proc : Type := {
  info_pid : Z;
  info_name : option string;
  io_counters : outcome pio
}.

(** ** disk_monitor_gui.py: DiskMonitorWorker *)

Abbreviation Key := (Z * string)%type.
Abbreviation SampleResult := (list (Key * (Z * Z))).

(** The local variables of [DiskMonitorWorker.run]. *)
Record Locals : Type := {
  prev_io : gmap Z (Z * Z);
  totals : list (Key * (Z * Z))
}.

Definition initial_locals : Locals := {| prev_io := ∅; totals := [] |}.

(** [proc.info.get('name') or f"pid:{pid}"] *)
Definition display_name (proc : Proc) : string :=
  match info_name proc with
  | Some s => if decide (s = "") then "pid:" +:+ pretty (info_pid proc) else s
  | None => "pid:" +:+ pretty (info_pid proc)
  end.

(** The body of [for proc in psutil.process_iter(...)], with sums that are
    not rounded. *)
Definition loop_body (st : Locals) (proc : Proc) : outcome Locals :=
  let pid := info_pid proc in
  let name := display_name proc in
  match io_counters proc with
  | Raises NoSuchProcess | Raises AccessDenied => Returns st
  | Raises e => Raises e
  | Returns io =>
      let read := read_bytes io in
      let write := write_bytes io in
      match prev_io st !! pid with
      | None =>
          Returns {| prev_io := <[pid := (read, write)]> (prev_io st);
                     totals := totals st |}
      | Some prev =>
          let delta_read := Z.max 0 (read - prev.1) in
          let delta_write := Z.max 0 (write - prev.2) in
          let key := (pid, name) in
          let totals1 :=
            defaultdict_update (0, 0) (fun v => (v.1 + delta_read, v.2))
              key (totals st) in
          let totals2 :=
            defaultdict_update (0, 0) (fun v => (v.1, v.2 + delta_write))
              key totals1 in
          Returns {| prev_io := <[pid := (read, write)]> (prev_io st);
                     totals := totals2 |}
      end
  end.

(** One pass of the [for] loop over the processes of a tick. *)
Fixpoint observe (st : Locals) (procs : list Proc) : outcome Locals :=
  match procs with
  | [] => Returns st
  | proc :: rest =>
      match loop_body st proc with
      | Returns st' => observe st' rest
      | Raises e => Raises e
      end
  end.

(** Several ticks in a row (the sleeps between them change nothing). *)
Fixpoint observe_ticks (st : Locals) (ticks : list (list Proc)) : outcome Locals :=
  match ticks with
  | [] => Returns st
  | procs :: rest =>
      match observe st procs with
      | Returns st' => observe_ticks st' rest
      | Raises e => Raises e
      end
  end.

(** The body of [for proc in psutil.process_iter(...)] as the source has
    it: the totals start at [0.0] and are floats, and [+=] adds an int to
    a float. *)
Definition loop_body_float (st : Locals) (proc : Proc) : outcome Locals :=
  let pid := info_pid proc in
  let name := display_name proc in
  match io_counters proc with
  | Raises NoSuchProcess | Raises AccessDenied => Returns st
  | Raises e => Raises e
  | Returns io =>
      let read := read_bytes io in
      let write := write_bytes io in
      match prev_io st !! pid with
      | None =>
          Returns {| prev_io := <[pid := (read, write)]> (prev_io st);
                     totals := totals st |}
      | Some prev =>
          let delta_read := Z.max 0 (read - prev.1) in
          let delta_write := Z.max 0 (write - prev.2) in
          let key := (pid, name) in
          let totals1 :=
            defaultdict_update (0, 0)
              (fun v => (float_add_int v.1 delta_read, v.2))
              key (totals st) in
          let totals2 :=
            defaultdict_update (0, 0)
              (fun v => (v.1, float_add_int v.2 delta_write))
              key totals1 in
          Returns {| prev_io := <[pid := (read, write)]> (prev_io st);
                     totals := totals2 |}
      end
  end.

Fixpoint observe_float (st : Locals) (procs : list Proc) : outcome Locals :=
  match procs with
  | [] => Returns st
  | proc :: rest =>
      match loop_body_float st proc with
      | Returns st' => observe_float st' rest
      | Raises e => Raises e
      end
  end.

Fixpoint observe_ticks_float (st : Locals) (ticks : list (list Proc))
    : outcome Locals :=
  match ticks with
  | [] => Returns st
  | procs :: rest =>
      match observe_float st procs with
      | Returns st' => observe_ticks_float st' rest
      | Raises e => Raises e
      end
  end.

(** Lines 91-93: the copy of [totals] that is put on the queue. *)
Definition convert (tot : list (Key * (Z * Z))) : SampleResult :=
  foldl (fun out item => dict_set item.1 (item.2.1, item.2.2) out) [] tot.

(** The thread of [DiskMonitorWorker], as a machine that the scheduler
    advances one step at a time.  [AtEntry]: [run] has not executed a line yet;
    [AtLoopTest]: about to evaluate the [while] condition (the iteration
    boundary); [InTick rest]: inside the [for] loop with [rest] still to
    visit; [AtSleep]: about to [time.sleep(interval)]; [Finished]: [run] has
    put its result on the queue, which is its last line, and returned (the
    two are one step here); [Died e]: [run] was left by the exception
    [e]. *)
Inductive PC : Type :=
  | AtEntry
  | AtLoopTest
  | InTick (rest : list Proc)
  | AtSleep
  | Finished
  | Died (e : exn).

Record DiskMonitorWorker : Type := {
  duration : Z;
  interval : Q;
  top_n : Z;
  _stop_event : bool;
  end_time : Q;
  pc : PC;
  locals : Locals
}.

(** [DiskMonitorWorker(...)] followed by [.start()]. *)
Definition new_worker (duration : Z) (interval : Q) (top_n : Z) : DiskMonitorWorker :=
  {| duration := duration; interval := interval; top_n := top_n;
     _stop_event := false; end_time := 0%Q; pc := AtEntry;
     locals := initial_locals |}.

Definition is_alive (w : DiskMonitorWorker) : bool :=
  match pc w with
  | Finished | Died _ => false
  | _ => true
  end.

Definition stop (w : DiskMonitorWorker) : DiskMonitorWorker :=
  {| duration := duration w; interval := interval w; top_n := top_n w;
     _stop_event := true; end_time := end_time w; pc := pc w;
     locals := locals w |}.

Definition stopped (w : DiskMonitorWorker) : bool := _stop_event w.

Definition at_pc (w : DiskMonitorWorker) (p : PC) : DiskMonitorWorker :=
  {| duration := duration w; interval := interval w; top_n := top_n w;
     _stop_event := _stop_event w; end_time := end_time w; pc := p;
     locals := locals w |}.

(** What the environment answers when the thread asks: the clock and the
    live processes. *)
Record Env : Type := { clock : Q; process_iter : list Proc }.

Definition Qlt_bool (x y : Q) : bool := negb (Qle_bool y x).

(** One step of [run].  The queue is the object shared with the GUI.
    At the entry the sum [time.time() + duration] is written without the
    rounding of the float addition; the statements below that are about
    the end time take the worker at its loop test, with the end time it
    has.  [time.sleep] is taken to return: every worker that
    [start_monitor] creates has an interval of at least 0.1. *)
Definition run_step (env : Env) (w : DiskMonitorWorker)
    (out_queue : list SampleResult) : DiskMonitorWorker * list SampleResult :=
  match pc w with
  | AtEntry =>
      ({| duration := duration w; interval := interval w; top_n := top_n w;
          _stop_event := _stop_event w;
          end_time := (clock env + inject_Z (duration w))%Q;
          pc := AtLoopTest; locals := locals w |}, out_queue)
  | AtLoopTest =>
      if Qlt_bool (clock env) (end_time w) && negb (stopped w)
      then (at_pc w (InTick (process_iter env)), out_queue)
      else (at_pc w Finished, out_queue ++ [convert (totals (locals w))])
  | InTick [] => (at_pc w AtSleep, out_queue)
  | InTick (proc :: rest) =>
      match loop_body (locals w) proc with
      | Returns st' =>
          ({| duration := duration w; interval := interval w; top_n := top_n w;
              _stop_event := _stop_event w; end_time := end_time w;
              pc := InTick rest; locals := st' |}, out_queue)
      | Raises e => (at_pc w (Died e), out_queue)
      end
  | AtSleep => (at_pc w AtLoopTest, out_queue)
  | Finished | Died _ => (w, out_queue)
  end.

(** ** disk_monitor_gui.py: DiskMonitorGUI *)

Inductive widget_state : Type := NORMAL | DISABLED.

(** The texts that [status_var] takes. *)
Inductive Status : Type :=
  | Idle
  | Starting
  | Monitoring (duration : Z) (interval : Q)
  | Stopping
  | Done (displayed : nat).

Inductive Dialog : Type :=
  | showinfo (title message : string).

Record Row : Type := {
  row_pid : Z;
  row_name : string;
  read_mb : Q;
  write_mb : Q;
  total_mb : Q
}.

Record DiskMonitorGUI : Type := {
  duration_var : Z;
  interval_var : Q;
  top_var : Z;
  start_button : widget_state;
  stop_button : widget_state;
  export_button : widget_state;
  tree : list Row;
  status_var : Status;
  worker : option DiskMonitorWorker;
  result_queue : list SampleResult;
  _last_result : option (list Row)
}.

(** [self.worker and self.worker.is_alive()] *)
Definition worker_alive (g : DiskMonitorGUI) : bool :=
  match worker g with
  | Some w => is_alive w
  | None => false
  end.

Definition start_monitor (g : DiskMonitorGUI) : DiskMonitorGUI * list Dialog :=
  if worker_alive g then
    (g, [showinfo "Disk Monitor" "Monitoring already in progress."])
  else
    let duration := Z.max 1 (duration_var g) in
    let interval := Qmax (1 # 10) (interval_var g) in
    let top_n := Z.max 1 (top_var g) in
    ({| duration_var := duration_var g; interval_var := interval_var g;
        top_var := top_var g;
        start_button := DISABLED; stop_button := NORMAL;
        export_button := DISABLED;
        tree := [];
        status_var := Monitoring duration interval;
        worker := Some (new_worker duration interval top_n);
        result_queue := [];
        _last_result := _last_result g |}, []).

Definition stop_monitor (g : DiskMonitorGUI) : DiskMonitorGUI :=
  match worker g with
  | Some w =>
      if is_alive w then
        {| duration_var := duration_var g; interval_var := interval_var g;
           top_var := top_var g;
           start_button := start_button g; stop_button := DISABLED;
           export_button := export_button g;
           tree := tree g;
           status_var := Stopping;
           worker := Some (stop w);
           result_queue := result_queue g;
           _last_result := _last_result g |}
      else g
  | None => g
  end.

Definition MB : Q := inject_Z (1024 * 1024).

(** Lines 200-205: one row per item of the result.  The two values of
    an item are floats; dividing a float by 2^20 is exact, and the sum
    of the two quotients is rounded, which is the rounding of the sum of
    the two values, scaled. *)
Definition row_of (item : Key * (Z * Z)) : Row :=
  {| row_pid := item.1.1; row_name := item.1.2;
     read_mb := (inject_Z item.2.1 / MB)%Q;
     write_mb := (inject_Z item.2.2 / MB)%Q;
     total_mb := (inject_Z (round_f64 (item.2.1 + item.2.2)) / MB)%Q |}.

Definition sorted_rows (result : SampleResult) : list Row :=
  sort_reverse total_mb (map row_of result).

(** Lines 200-209: the rows that are shown, for the value [top_n] of the
    Top N field. *)
Definition displayed (result : SampleResult) (top_n : Z) : list Row :=
  slice_to top_n (sorted_rows result).

(** The rows are inserted as text with two decimals; the table keeps the
    rows themselves here. *)
Definition _periodic_poll (g : DiskMonitorGUI) : DiskMonitorGUI :=
  match result_queue g with
  | [] => g
  | result :: queue' =>
      let top_n := top_var g in
      let shown := displayed result top_n in
      {| duration_var := duration_var g; interval_var := interval_var g;
         top_var := top_var g;
         start_button := NORMAL; stop_button := DISABLED;
         export_button := NORMAL;
         tree := tree g ++ shown;
         status_var := Done (length shown);
         worker := worker g;
         result_queue := queue';
         _last_result := Some shown |}
  end.

(** The worker thread takes a step inside the application: it puts its
    result on the queue it was created with, which is [result_queue]. *)
Definition worker_step (env : Env) (g : DiskMonitorGUI) : DiskMonitorGUI :=
  match worker g with
  | None => g
  | Some w =>
      let '(w', q') := run_step env w (result_queue g) in
      {| duration_var := duration_var g; interval_var := interval_var g;
         top_var := top_var g;
         start_button := start_button g; stop_button := stop_button g;
         export_button := export_button g;
         tree := tree g;
         status_var := status_var g;
         worker := Some w';
         result_queue := q';
         _last_result := _last_result g |}
  end.

(** The user types a new value into the Top N entry. *)
Definition edit_top_var (n : Z) (g : DiskMonitorGUI) : DiskMonitorGUI :=
  {| duration_var := duration_var g; interval_var := interval_var g;
     top_var := n;
     start_button := start_button g; stop_button := stop_button g;
     export_button := export_button g;
     tree := tree g;
     status_var := status_var g;
     worker := worker g;
     result_queue := result_queue g;
     _last_result := _last_result g |}.

(** [DiskMonitorGUI.__init__]: the application as it opens. *)
Definition initial_gui : DiskMonitorGUI :=
  {| duration_var := 30; interval_var := 1%Q; top_var := 15;
     start_button := NORMAL; stop_button := DISABLED;
     export_button := DISABLED;
     tree := []; status_var := Idle; worker := None; result_queue := [];
     _last_result := None |}.

(** Several steps of the thread, one environment answer per step. *)
Definition run_steps (envs : list Env) (w : DiskMonitorWorker)
    (out_queue : list SampleResult) : DiskMonitorWorker * list SampleResult :=
  foldl (fun s env => run_step env s.1 s.2) (w, out_queue) envs.


(** ** disk_monitor.py *)

Record ConsoleRow : Type := {
  name : option string;
  c_read_mb : Q;
  c_write_mb : Q;
  c_total_mb : Q
}.

(** The body of the [for] loop: the raw cumulative counters are added to
    the entry of the process name. *)
Definition console_body (process_io : list (option string * (Z * Z)))
    (proc : Proc) : outcome (list (option string * (Z * Z))) :=
  match io_counters proc with
  | Raises NoSuchProcess | Raises AccessDenied => Returns process_io
  | Raises e => Raises e
  | Returns io =>
      let name := info_name proc in
      let process_io1 :=
        defaultdict_update (0, 0) (fun v => (v.1 + read_bytes io, v.2))
          name process_io in
      Returns
        (defaultdict_update (0, 0) (fun v => (v.1, v.2 + write_bytes io))
           name process_io1)
  end.

Fixpoint console_observe (process_io : list (option string * (Z * Z)))
    (procs : list Proc) : outcome (list (option string * (Z * Z))) :=
  match procs with
  | [] => Returns process_io
  | proc :: rest =>
      match console_body process_io proc with
      | Returns d => console_observe d rest
      | Raises e => Raises e
      end
  end.

(** Lines 33-40.  The totals are ints here, and dividing an int by 2^20
    gives the float nearest to the quotient. *)
Definition console_row_of (item : option string * (Z * Z)) : ConsoleRow :=
  let total := item.2.1 + item.2.2 in
  {| name := item.1;
     c_read_mb := (inject_Z (round_f64 item.2.1) / MB)%Q;
     c_write_mb := (inject_Z (round_f64 item.2.2) / MB)%Q;
     c_total_mb := (inject_Z (round_f64 total) / MB)%Q |}.

(** Lines 31-48: the rows that are handed to the loop that prints. *)
Definition console_summary (process_io : list (option string * (Z * Z)))
    : list ConsoleRow :=
  slice_to 15 (sort_reverse c_total_mb (map console_row_of process_io)).

(** Lines 48-49: the rows are printed one by one; formatting a name
    that is [None] with [:<30] raises TypeError. *)
Fixpoint console_print (rows : list ConsoleRow) : outcome unit :=
  match rows with
  | [] => Returns ()
  | row :: rest =>
      match name row with
      | None => Raises (OtherException "TypeError")
      | Some _ => console_print rest
      end
  end.

(** The [while] loop.  [trace] holds what the environment answers at each
    evaluation of the loop condition; the run is over when the condition
    fails, and [None] means that the trace ended before the run did.
    [time.sleep] raises ValueError when the interval is negative. *)
Fixpoint console_loop (duration : Z) (interval : Q) (start_time : Q)
    (process_io : list (option string * (Z * Z))) (samples : nat)
    (trace : list Env)
    : option (outcome (list (option string * (Z * Z)) * nat)) :=
  match trace with
  | [] => None
  | env :: trace' =>
      if Qlt_bool (clock env - start_time)%Q (inject_Z duration) then
        match console_observe process_io (process_iter env) with
        | Returns d =>
            if Qlt_bool interval 0 then
              Some (Raises (OtherException "ValueError"))
            else
              console_loop duration interval start_time d (S samples) trace'
        | Raises e => Some (Raises e)
        end
      else Some (Returns (process_io, samples))
  end.

(** The result is the rows that were printed and the number of samples. *)
Definition monitor_disk_activity (duration : Z) (interval : Q)
    (start_time : Q) (trace : list Env)
    : option (outcome (list ConsoleRow * nat)) :=
  match console_loop duration interval start_time [] 0 trace with
  | Some (Returns (process_io, samples)) =>
      match console_print (console_summary process_io) with
      | Returns _ => Some (Returns (console_summary process_io, samples))
      | Raises e => Some (Raises e)
      end
  | Some (Raises e) => Some (Raises e)
  | None => None
  end.


(** ** The properties of the specification, as stated there *)

(** "if no prior snapshot exists": no reading of [pid] has succeeded yet. *)
Definition seen (pid : Z) (procs : list Proc) : bool :=
  existsb (fun proc =>
             match io_counters proc with
             | Returns _ => bool_decide (info_pid proc = pid)
             | Raises _ => false
             end) procs.

(** The running total of an identity; an identity without a row has
    accumulated nothing. *)
Definition total_of (key : Key) (tot : list (Key * (Z * Z))) : Z * Z :=
  default (0, 0) (dict_get key tot).

(** The counter read of [proc] fails with one of the two errors that the
    loops catch. *)
Definition gone_or_denied (proc : Proc) : bool :=
  match io_counters proc with
  | Raises NoSuchProcess | Raises AccessDenied => true
  | _ => false
  end.

Definition reads_ok (proc : Proc) : bool :=
  match io_counters proc with
  | Returns _ => true
  | Raises _ => false
  end.

(** "sorted descending by total_bytes, ties broken by identity (pid
    ascending)". *)
Definition ranked_by_total_then_pid (rows : list Row) : Prop :=
  StronglySorted
    (fun a b => (total_mb b < total_mb a)%Q \/
                ((total_mb a == total_mb b)%Q /\ row_pid a <= row_pid b))
    rows.

(** The total of an item of the result, in bytes. *)
Definition total_bytes (item : Key * (Z * Z)) : Z := item.2.1 + item.2.2.

(** What the sort of the program guarantees instead. *)
Definition descending {A : Type} (key : A -> Q) (l : list A) : Prop :=
  StronglySorted (fun a b => (key b <= key a)%Q) l.

Definition with_key {A : Type} (key : A -> Q) (q : Q) (l : list A) : list A :=
  filter (fun x => Qeq_bool (key x) q = true) l.

(** ** Inputs of the examples *)

Definition reading (pid : Z) (nm : string) (r w : Z) : Proc :=
  {| info_pid := pid; info_name := Some nm;
     io_counters := Returns {| read_bytes := r; write_bytes := w |} |}.

Definition failing (pid : Z) (nm : string) (e : exn) : Proc :=
  {| info_pid := pid; info_name := Some nm; io_counters := Raises e |}.

(** The three ticks of the example of the specification. *)
Definition example_ticks : list (list Proc) :=
  [ [reading 4242 "a.exe" 100 50];
    [reading 4242 "a.exe" 150 80];
    [reading 4242 "a.exe" 140 90] ].

(** Pid 7 is alive from the first tick, pid 3 appears at the second; each
    tick lists its processes by ascending pid, as psutil does. *)
Definition tie_ticks : list (list Proc) :=
  [ [reading 7 "late.exe" 0 0];
    [reading 3 "early.exe" 0 0; reading 7 "late.exe" 10 0];
    [reading 3 "early.exe" 10 0; reading 7 "late.exe" 10 0] ].

Definition tie_result : SampleResult :=
  [ ((7, "late.exe"), (10, 0)); ((3, "early.exe"), (10, 0)) ].


(** The application with zero typed into the Duration and Top N entries. *)
Definition zero_config_gui : DiskMonitorGUI :=
  {| duration_var := 0; interval_var := 1%Q; top_var := 0;
     start_button := NORMAL; stop_button := DISABLED;
     export_button := DISABLED;
     tree := []; status_var := Idle; worker := None; result_queue := [];
     _last_result := None |}.

(** A run in progress: started from the initial application, the thread
    has taken the baseline of one process and is inside its second tick. *)
Definition running_gui : DiskMonitorGUI :=
  foldl (fun g env => worker_step env g) (start_monitor initial_gui).1
    [ {| clock := 0%Q; process_iter := [] |};
      {| clock := 0%Q; process_iter := [reading 4242 "a.exe" 100 50] |};
      {| clock := 0%Q; process_iter := [] |};
      {| clock := 0%Q; process_iter := [] |};
      {| clock := 1%Q; process_iter := [] |};
      {| clock := 1%Q; process_iter := [reading 4242 "a.exe" 150 80;
                                         reading 5 "b.exe" 1 1] |};
      {| clock := 1%Q; process_iter := [] |} ].

(** Every row of the totals belongs to a pid that has a stored snapshot,
    and no identity has two rows. *)
Definition locals_wf (st : Locals) : Prop :=
  NoDup (totals st).*1 /\
  forall key, key ∈ (totals st).*1 -> is_Some (prev_io st !! key.1).




(** The counters of one process pass 2^53 between its first and its
    second reading. *)
Definition big_ticks : list (list Proc) :=
  [ [reading 4242 "a.exe" 0 0];
    [reading 4242 "a.exe" (2 ^ 53 + 1) 0];
    [reading 4242 "a.exe" (2 ^ 53 + 2) 0] ].

(** No total is negative; no total exceeds 2^53, the range in which a
    float holds every integer. *)
Definition totals_nonneg (st : Locals) : Prop :=
  forall key,
    0 <= (total_of key (totals st)).1 /\ 0 <= (total_of key (totals st)).2.

Definition totals_exact (st : Locals) : Prop :=
  forall key,
    (total_of key (totals st)).1 <= 2 ^ 53 /\
    (total_of key (totals st)).2 <= 2 ^ 53.

(** Two states with the same snapshots and the same identities, in the
    same order. *)
Definition same_shape (a b : Locals) : Prop :=
  prev_io a = prev_io b /\ (totals a).*1 = (totals b).*1.

(** One tick in which two processes are read. *)
Definition single_tick : list (list Proc) :=
  [ [reading 3 "early.exe" 10 0; reading 7 "late.exe" 10 0] ].

(** "the number of observed identities": the identities of the
    successful readings of a run. *)
Definition observed_identities (ticks : list (list Proc)) : list Key :=
  remove_dups
    (map (fun proc => (info_pid proc, display_name proc))
       (filter (fun proc => reads_ok proc = true) (concat ticks))).

(** An identity is read again: one of its successful readings comes
    after an earlier successful reading of its pid. *)
Definition read_again (key : Key) (procs : list Proc) : Prop :=
  exists a proc b,
    procs = a ++ proc :: b /\ reads_ok proc = true /\
    (info_pid proc, display_name proc) = key /\ seen key.1 a = true.

(** The worker after the first tick of the example. *)
Definition after_first_tick : Locals :=
  {| prev_io := {[ 4242 := (100, 50) ]}; totals := [] |}.



(** The worker at another point of [run], with other local variables. *)
Definition at_state (w : DiskMonitorWorker) (p : PC) (st : Locals)
    : DiskMonitorWorker :=
  {| duration := duration w; interval := interval w; top_n := top_n w;
     _stop_event := _stop_event w; end_time := end_time w; pc := p;
     locals := st |}.

(** A worker of a three second run with end time 3, at its loop test
    with nothing accumulated. *)
Definition example_looping_worker : DiskMonitorWorker :=
  {| duration := 3; interval := 1%Q; top_n := 15;
     _stop_event := false; end_time := 3%Q; pc := AtLoopTest;
     locals := initial_locals |}.


(** A worker in the middle of a tick, and three answers of the
    environment. *)
Definition mid_tick_worker : DiskMonitorWorker :=
  {| duration := 30; interval := 1%Q; top_n := 15; _stop_event := false;
     end_time := 30%Q; pc := InTick [reading 4242 "a.exe" 150 80];
     locals := after_first_tick |}.

Definition idle_env : Env := {| clock := 2%Q; process_iter := [] |}.

(** A finished run whose result, two identities, waits on the queue; the
    run was started with 1 in the Top N entry. *)
Definition delivered_gui : DiskMonitorGUI :=
  {| duration_var := 30; interval_var := 1%Q; top_var := 1;
     start_button := DISABLED; stop_button := NORMAL;
     export_button := DISABLED;
     tree := []; status_var := Monitoring 30 1;
     worker := Some (at_state (new_worker 30 1 1) Finished
                       {| prev_io := ∅; totals := tie_result |});
     result_queue := [tie_result];
     _last_result := None |}.

(** A worker about to read a process that denies access. *)
Definition denied_tick_worker : DiskMonitorWorker :=
  {| duration := 30; interval := 1%Q; top_n := 15; _stop_event := false;
     end_time := 30%Q;
     pc := InTick [failing 4 "System" AccessDenied;
                   reading 4242 "a.exe" 150 80];
     locals := after_first_tick |}.

(** ** The rest of the application *)

(** The user types a new value into the Duration or the Interval entry. *)
Definition edit_duration_var (d : Z) (g : DiskMonitorGUI) : DiskMonitorGUI :=
  {| duration_var := d; interval_var := interval_var g;
     top_var := top_var g;
     start_button := start_button g; stop_button := stop_button g;
     export_button := export_button g;
     tree := tree g;
     status_var := status_var g;
     worker := worker g;
     result_queue := result_queue g;
     _last_result := _last_result g |}.

Definition edit_interval_var (i : Q) (g : DiskMonitorGUI) : DiskMonitorGUI :=
  {| duration_var := duration_var g; interval_var := i;
     top_var := top_var g;
     start_button := start_button g; stop_button := stop_button g;
     export_button := export_button g;
     tree := tree g;
     status_var := status_var g;
     worker := worker g;
     result_queue := result_queue g;
     _last_result := _last_result g |}.

(** What can happen to the application: the commands of the two buttons,
    the timer callback, a step of the worker thread, and edits of the
    three entries. *)
Inductive Event : Type :=
  | ClickStart
  | ClickStop
  | Poll
  | ThreadStep (env : Env)
  | TypeDuration (d : Z)
  | TypeInterval (i : Q)
  | TypeTopN (n : Z).

Definition handle (g : DiskMonitorGUI) (ev : Event) : DiskMonitorGUI :=
  match ev with
  | ClickStart => (start_monitor g).1
  | ClickStop => stop_monitor g
  | Poll => _periodic_poll g
  | ThreadStep env => worker_step env g
  | TypeDuration d => edit_duration_var d g
  | TypeInterval i => edit_interval_var i g
  | TypeTopN n => edit_top_var n g
  end.

Definition handle_all (g : DiskMonitorGUI) (evs : list Event) : DiskMonitorGUI :=
  foldl handle g evs.

(** [export_json].  The answers of the environment are the path chosen in
    the save dialog (empty when the dialog is cancelled) and whether
    writing the file raised.  The function changes nothing in the
    application; what it does is the list of its effects.  The file holds
    one record per row with the five fields of the row; the JSON text
    itself is not modelled. *)
Inductive ExportEffect : Type :=
  | export_showinfo (title message : string)
  | export_showerror (title message : string)
  | asksaveasfilename
  | json_dump (path : string) (data : list Row).

Definition exn_text (e : exn) : string :=
  match e with
  | NoSuchProcess => "NoSuchProcess"
  | AccessDenied => "AccessDenied"
  | OtherException what => what
  end.

Definition export_json (g : DiskMonitorGUI) (path : string)
    (written : outcome unit) : list ExportEffect :=
  let data := default [] (_last_result g) in
  match data with
  | [] => [export_showinfo "Export" "No data to export."]
  | _ :: _ =>
      if decide (path = "") then [asksaveasfilename]
      else
        match written with
        | Returns _ =>
            [asksaveasfilename; json_dump path data;
             export_showinfo "Export"
               ("Exported " +:+ pretty (length data) +:+ " rows to " +:+ path)]
        | Raises exc =>
            [asksaveasfilename;
             export_showerror "Export Error"
               ("Failed to export: " +:+ exn_text exc)]
        end
  end.

(** ** Notions used to describe the sampling *)

(** The successful readings of pid [p] among [procs], in order. *)
Definition readings_of (p : Z) (procs : list Proc) : list (Z * Z) :=
  omap (fun proc =>
          match io_counters proc with
          | Returns io =>
              if decide (info_pid proc = p)
              then Some (read_bytes io, write_bytes io) else None
          | Raises _ => None
          end) procs.

(** The snapshot that the worker holds for [p], if any, followed by the
    readings of [p] that it is about to see. *)
Definition history (st : Locals) (p : Z) (procs : list Proc) : list (Z * Z) :=
  option_list (prev_io st !! p) ++ readings_of p procs.

(** The sum of the increases along a sequence of counter values, a
    decrease counting for nothing. *)
Fixpoint clamped_growth (base : Z) (values : list Z) : Z :=
  match values with
  | [] => 0
  | v :: values' => Z.max 0 (v - base) + clamped_growth v values'
  end.

Definition growth (values : list Z) : Z :=
  match values with
  | [] => 0
  | base :: values' => clamped_growth base values'
  end.

(** The identity under which a reading is accounted. *)
Definition identity (proc : Proc) : Key := (info_pid proc, display_name proc).

(** The steps that the thread takes for one tick: the loop test, one step
    per process, the end of the [for] loop, and the sleep.  The
    environment is asked at the loop test only; its answer is repeated
    for the other steps, which ignore it. *)
Definition tick_schedule (tick : Env) : list Env :=
  replicate (length (process_iter tick) + 3) tick.


(** ** Notions used to describe the console script *)

Fixpoint console_observe_ticks (process_io : list (option string * (Z * Z)))
    (ticks : list (list Proc)) : outcome (list (option string * (Z * Z))) :=
  match ticks with
  | [] => Returns process_io
  | procs :: rest =>
      match console_observe process_io procs with
      | Returns d => console_observe_ticks d rest
      | Raises e => Raises e
      end
  end.

(** The sums of the raw counters of the successful reads of the
    processes called [nm]. *)
Fixpoint raw_sum (nm : option string) (procs : list Proc) : Z * Z :=
  match procs with
  | [] => (0, 0)
  | proc :: rest =>
      let s := raw_sum nm rest in
      match io_counters proc with
      | Returns io =>
          if decide (info_name proc = nm)
          then (read_bytes io + s.1, write_bytes io + s.2) else s
      | Raises _ => s
      end
  end.

Definition console_total (nm : option string)
    (process_io : list (option string * (Z * Z))) : Z * Z :=
  default (0, 0) (dict_get nm process_io).






(** What holds of the application at any time: a result waits on the
    queue only after the thread has put it there, and it is the totals of
    that thread; until the thread has put its result, or for ever if it
    died, the queue is empty, the Start and Export buttons are disabled
    and the table is empty. *)
Definition gui_inv (g : DiskMonitorGUI) : Prop :=
  match worker g with
  | None => result_queue g = []
  | Some w =>
      locals_wf (locals w) /\
      match pc w with
      | Finished =>
          result_queue g = [] \/ result_queue g = [totals (locals w)]
      | _ =>
          result_queue g = [] /\ start_button g = DISABLED /\
          export_button g = DISABLED /\ tree g = []
      end
  end.

(** The rows kept for export, if any, are ranked. *)
Definition last_result_ranked (g : DiskMonitorGUI) : Prop :=
  match _last_result g with
  | None => True
  | Some rows => descending total_mb rows
  end.

(** ** Facts about insertion-ordered dictionaries *)

Section DictFacts.
Context {K V : Type} `{EqDecision K}.
Implicit Types (k : K) (v : V) (d : list (K * V)).

Lemma dict_get_set_eq k v d : dict_get k (dict_set k v d) = Some v.
Proof.
  induction d as [|[k' v'] d IH]; simpl.
  - by rewrite decide_True.
  - destruct (decide (k' = k)) as [->|Hne]; simpl.
    + by rewrite decide_True.
    + by rewrite decide_False.
Qed.

Lemma dict_get_set_ne k k' v d :
  k ≠ k' -> dict_get k' (dict_set k v d) = dict_get k' d.
Proof.
  intros Hne. induction d as [|[k0 v0] d IH]; simpl.
  - by rewrite decide_False.
  - destruct (decide (k0 = k)) as [->|Hne0]; simpl.
    + by rewrite !decide_False.
    + by rewrite IH.
Qed.


Lemma dict_set_keys_present k v d :
  k ∈ d.*1 -> (dict_set k v d).*1 = d.*1.
Proof.
  induction d as [|[k' v'] d IH]; simpl.
  - intros Hin. by apply elem_of_nil in Hin.
  - intros Hin. destruct (decide (k' = k)) as [->|Hne]; simpl; [done|].
    f_equal. apply IH. apply elem_of_cons in Hin as [?|?]; [congruence | done].
Qed.

Lemma dict_set_keys_absent k v d :
  k ∉ d.*1 -> (dict_set k v d).*1 = d.*1 ++ [k].
Proof.
  induction d as [|[k' v'] d IH]; simpl; [done|].
  rewrite not_elem_of_cons. intros [Hne Hnin].
  rewrite decide_False by congruence. simpl. f_equal. by apply IH.
Qed.

Lemma dict_set_absent k v d : k ∉ d.*1 -> dict_set k v d = d ++ [(k, v)].
Proof.
  induction d as [|[k' v'] d IH]; simpl; [done|].
  rewrite not_elem_of_cons. intros [Hne Hnin].
  rewrite decide_False by congruence. by rewrite IH.
Qed.

Lemma dict_set_NoDup k v d : NoDup d.*1 -> NoDup (dict_set k v d).*1.
Proof.
  intros Hnd. destruct (decide (k ∈ d.*1)) as [Hin|Hnin].
  - by rewrite dict_set_keys_present.
  - rewrite dict_set_keys_absent by done.
    apply NoDup_app. split; [done|]. split; [|apply NoDup_singleton].
    intros x Hx Hx'. apply list_elem_of_singleton in Hx'. by subst.
Qed.

Lemma defaultdict_update_get dflt (f : V -> V) k d :
  dict_get k (defaultdict_update dflt f k d)
  = Some (f (default dflt (dict_get k d))).
Proof.
  unfold defaultdict_update. destruct (dict_get k d); simpl; apply dict_get_set_eq.
Qed.

Lemma defaultdict_update_keys dflt (f : V -> V) k d :
  (defaultdict_update dflt f k d).*1
  = if decide (k ∈ d.*1) then d.*1 else d.*1 ++ [k].
Proof.
  unfold defaultdict_update. destruct (decide (k ∈ d.*1)) as [Hin|Hnin].
  - destruct (dict_get k d); by apply dict_set_keys_present.
  - destruct (dict_get k d); by apply dict_set_keys_absent.
Qed.



End DictFacts.

(** ** Facts about the sort and the slice *)

Section SortFacts.
Context {A : Type} (key : A -> Q).
Implicit Types (x : A) (l : list A).

Lemma insert_desc_perm x l : insert_desc key x l ≡ₚ x :: l.
Proof.
  induction l as [|y l IH]; simpl; [done|].
  destruct (Qle_bool (key y) (key x)); [done|].
  rewrite IH. apply Permutation_swap.
Qed.

Lemma sort_reverse_perm l : sort_reverse key l ≡ₚ l.
Proof.
  induction l as [|x l IH]; simpl; [done|].
  by rewrite insert_desc_perm, IH.
Qed.

Lemma sort_reverse_length l : length (sort_reverse key l) = length l.
Proof. by rewrite sort_reverse_perm. Qed.

Lemma insert_desc_descending x l :
  descending key l -> descending key (insert_desc key x l).
Proof.
  unfold descending. induction 1 as [|y l Hl IH Hy]; simpl.
  - repeat constructor.
  - destruct (Qle_bool (key y) (key x)) eqn:Hle.
    + apply Qle_bool_iff in Hle. constructor; [by constructor|].
      constructor; [done|].
      eapply Forall_impl; [exact Hy|]. simpl. intros b Hb. by apply Qle_trans with (key y).
    + constructor; [done|].
      rewrite insert_desc_perm. constructor; [|done].
      apply Qlt_le_weak, Qnot_le_lt. intros Hle'.
      apply Qle_bool_iff in Hle'. congruence.
Qed.

Lemma sort_reverse_descending l : descending key (sort_reverse key l).
Proof.
  induction l as [|x l IH]; simpl; [constructor|].
  by apply insert_desc_descending.
Qed.

(** Stability: an element only moves past elements with a strictly
    larger key, so elements with equal keys keep their order. *)
Lemma with_key_insert_desc q x l :
  with_key key q (insert_desc key x l) = with_key key q (x :: l).
Proof.
  unfold with_key. induction l as [|y l IH]; simpl; [done|].
  destruct (Qle_bool (key y) (key x)) eqn:Hle; [done|].
  rewrite filter_cons, IH, !filter_cons.
  destruct (decide (Qeq_bool (key y) q = true)) as [Hy|Hy]; [|done].
  destruct (decide (Qeq_bool (key x) q = true)) as [Hx|Hx]; [|done].
  apply Qeq_bool_iff in Hy, Hx.
  assert (Qle_bool (key y) (key x) = true); [|congruence].
  apply Qle_bool_iff. rewrite Hy, Hx. apply Qle_refl.
Qed.

Lemma sort_reverse_stable q l :
  with_key key q (sort_reverse key l) = with_key key q l.
Proof.
  induction l as [|x l IH]; simpl; [done|].
  rewrite with_key_insert_desc. unfold with_key in *.
  by rewrite !filter_cons, IH.
Qed.

Lemma sort_reverse_sorted l : descending key l -> sort_reverse key l = l.
Proof.
  unfold descending. induction 1 as [|x l Hl IH Hx]; simpl; [done|].
  rewrite IH. destruct l as [|y l]; simpl; [done|].
  apply Forall_cons in Hx as [Hy _].
  apply Qle_bool_iff in Hy. by rewrite Hy.
Qed.

Lemma descending_take n l : descending key l -> descending key (take n l).
Proof.
  unfold descending. revert n. induction l as [|x l IH]; intros n Hs.
  - by rewrite take_nil.
  - destruct n as [|n]; simpl; [constructor|].
    apply StronglySorted_inv in Hs as [Hl Hx].
    constructor; [by apply IH | by apply Forall_take].
Qed.

Lemma descending_slice_to n l :
  descending key l -> descending key (slice_to n l).
Proof. unfold slice_to. destruct (0 <=? n); apply descending_take. Qed.
End SortFacts.

Lemma slice_to_length {A : Type} (n : Z) (l : list A) :
  0 <= n -> Z.of_nat (length (slice_to n l)) = Z.min n (Z.of_nat (length l)).
Proof.
  intros Hn. unfold slice_to.
  rewrite (proj2 (Z.leb_le 0 n)) by done. rewrite length_take. lia.
Qed.

Lemma slice_to_prefix {A : Type} (n : Z) (l : list A) :
  exists rest, l = slice_to n l ++ rest.
Proof.
  unfold slice_to. destruct (0 <=? n); eexists; symmetry; apply take_drop.
Qed.

Lemma MB_pos : (0 < MB)%Q.
Proof. reflexivity. Qed.

Lemma round_f64_exact (n : Z) : Z.abs n <= 2 ^ 53 -> round_f64 n = n.
Proof.
  intros Hn. unfold round_f64.
  by rewrite (proj2 (Z.leb_le (Z.abs n) (2 ^ 53))).
Qed.

Lemma div_MB_le (x y : Z) :
  (inject_Z x / MB <= inject_Z y / MB)%Q <-> x <= y.
Proof.
  unfold Qdiv. rewrite Qmult_le_r by (apply Qinv_lt_0_compat, MB_pos).
  by rewrite <- Zle_Qle.
Qed.

(** Ordering rows by megabytes is ordering them by bytes, as long as the
    totals in bytes are not rounded. *)
Lemma total_mb_le (a b : Key * (Z * Z)) :
  Z.abs (total_bytes a) <= 2 ^ 53 ->
  Z.abs (total_bytes b) <= 2 ^ 53 ->
  (total_mb (row_of a) <= total_mb (row_of b))%Q
  <-> total_bytes a <= total_bytes b.
Proof.
  intros Ha Hb. unfold row_of, total_bytes in *. simpl.
  by rewrite div_MB_le, !round_f64_exact.
Qed.

Lemma c_total_mb_le (a b : option string * (Z * Z)) :
  Z.abs (a.2.1 + a.2.2) <= 2 ^ 53 ->
  Z.abs (b.2.1 + b.2.2) <= 2 ^ 53 ->
  (c_total_mb (console_row_of a) <= c_total_mb (console_row_of b))%Q
  <-> a.2.1 + a.2.2 <= b.2.1 + b.2.2.
Proof.
  intros Ha Hb. unfold console_row_of. simpl.
  by rewrite div_MB_le, !round_f64_exact.
Qed.

(** ** The sampling loop of the worker *)

Lemma observe_app st procs1 procs2 :
  observe st (procs1 ++ procs2)
  = match observe st procs1 with
    | Returns st' => observe st' procs2
    | Raises e => Raises e
    end.
Proof.
  revert st. induction procs1 as [|proc procs1 IH]; intros st; simpl; [done|].
  destruct (loop_body st proc); [apply IH | done].
Qed.

Lemma observe_ticks_concat st ticks :
  observe_ticks st ticks = observe st (concat ticks).
Proof.
  revert st. induction ticks as [|procs ticks IH]; intros st; simpl; [done|].
  rewrite observe_app. destruct (observe st procs); [apply IH | done].
Qed.

(** The three ways in which the body of the loop ends normally. *)
Lemma loop_body_skip st proc :
  gone_or_denied proc = true -> loop_body st proc = Returns st.
Proof.
  unfold gone_or_denied, loop_body.
  destruct (io_counters proc) as [io|[]]; done.
Qed.

Lemma loop_body_baseline st proc io :
  io_counters proc = Returns io ->
  prev_io st !! info_pid proc = None ->
  loop_body st proc
  = Returns {| prev_io := <[info_pid proc := (read_bytes io, write_bytes io)]>
                            (prev_io st);
               totals := totals st |}.
Proof. intros Hio Hprev. unfold loop_body. by rewrite Hio, Hprev. Qed.

Lemma loop_body_delta st proc io prior :
  io_counters proc = Returns io ->
  prev_io st !! info_pid proc = Some prior ->
  loop_body st proc
  = Returns
      {| prev_io := <[info_pid proc := (read_bytes io, write_bytes io)]>
                      (prev_io st);
         totals :=
           defaultdict_update (0, 0)
             (fun v => (v.1, v.2 + Z.max 0 (write_bytes io - prior.2)))
             (info_pid proc, display_name proc)
             (defaultdict_update (0, 0)
                (fun v => (v.1 + Z.max 0 (read_bytes io - prior.1), v.2))
                (info_pid proc, display_name proc) (totals st)) |}.
Proof. intros Hio Hprev. unfold loop_body. by rewrite Hio, Hprev. Qed.

(** Case analysis on one execution of the body. *)
Lemma loop_body_cases st proc st' :
  loop_body st proc = Returns st' ->
  (gone_or_denied proc = true /\ st' = st)
  \/ (exists io, io_counters proc = Returns io /\
        prev_io st !! info_pid proc = None /\
        st' = {| prev_io := <[info_pid proc := (read_bytes io, write_bytes io)]>
                              (prev_io st);
                 totals := totals st |})
  \/ (exists io prior, io_counters proc = Returns io /\
        prev_io st !! info_pid proc = Some prior /\
        loop_body st proc = Returns st' /\
        prev_io st' = <[info_pid proc := (read_bytes io, write_bytes io)]>
                        (prev_io st) /\
        (totals st').*1
        = if decide ((info_pid proc, display_name proc) ∈ (totals st).*1)
          then (totals st).*1
          else (totals st).*1 ++ [(info_pid proc, display_name proc)]).
Proof.
  intros Hbody. destruct (io_counters proc) as [io|e] eqn:Hio.
  - destruct (prev_io st !! info_pid proc) as [prior|] eqn:Hprev.
    + right; right. exists io, prior. split; [done|]. split; [done|].
      split; [done|].
      rewrite (loop_body_delta _ _ _ _ Hio Hprev) in Hbody.
      injection Hbody as <-. simpl. split; [done|].
      rewrite !defaultdict_update_keys.
      destruct (decide (_ ∈ (totals st).*1)) as [Hin|Hnin].
      * by rewrite decide_True.
      * rewrite decide_True; [done|]. apply elem_of_app. right.
        by apply list_elem_of_singleton.
    + right; left. exists io. rewrite (loop_body_baseline _ _ _ Hio Hprev) in Hbody.
      by injection Hbody as <-.
  - left. unfold loop_body in Hbody. rewrite Hio in Hbody.
    unfold gone_or_denied. rewrite Hio.
    destruct e; [by injection Hbody as <- ..|done].
Qed.

Lemma initial_locals_wf : locals_wf initial_locals.
Proof.
  split; [constructor|]. intros key Hin. by apply elem_of_nil in Hin.
Qed.

Lemma loop_body_wf st proc st' :
  locals_wf st -> loop_body st proc = Returns st' -> locals_wf st'.
Proof.
  intros [Hnd Hdom] Hbody.
  destruct (loop_body_cases _ _ _ Hbody)
    as [[_ ->]|[(io & Hio & Hprev & ->)|(io & prior & Hio & Hprev & _ & Hp & Hk)]].
  - done.
  - split; [done|]. simpl. intros key Hin.
    destruct (decide (info_pid proc = key.1)) as [Heq|Hne].
    + rewrite Heq, lookup_insert_eq. by eexists.
    + rewrite lookup_insert_ne by done. by apply Hdom.
  - split.
    + rewrite Hk. case_decide as Hin; [done|].
      apply NoDup_app. split; [done|]. split; [|apply NoDup_singleton].
      intros x Hx Hx'%list_elem_of_singleton. by subst.
    + intros key Hin. rewrite Hp.
      destruct (decide (info_pid proc = key.1)) as [Heq|Hne].
      * rewrite Heq, lookup_insert_eq. by eexists.
      * rewrite lookup_insert_ne by done. apply Hdom.
        rewrite Hk in Hin. case_decide; [done|].
        apply elem_of_app in Hin as [?|Hin%list_elem_of_singleton]; [done|].
        subst key. done.
Qed.

Lemma observe_wf st procs st' :
  locals_wf st -> observe st procs = Returns st' -> locals_wf st'.
Proof.
  revert st. induction procs as [|proc procs IH]; intros st Hwf; simpl.
  - by intros [= <-].
  - destruct (loop_body st proc) as [st1|] eqn:Hbody; [|done].
    apply IH. by eapply loop_body_wf.
Qed.

(** A pid has a stored snapshot exactly when one of its reads succeeded. *)
Lemma loop_body_prev_None st proc st' pid :
  loop_body st proc = Returns st' ->
  prev_io st' !! pid = None
  <-> prev_io st !! pid = None /\ seen pid [proc] = false.
Proof.
  intros Hbody. unfold seen. simpl. rewrite orb_false_r.
  destruct (loop_body_cases _ _ _ Hbody)
    as [[Hskip ->]|[(io & Hio & Hprev & ->)|(io & prior & Hio & Hprev & _ & Hp & _)]].
  - unfold gone_or_denied in Hskip.
    destruct (io_counters proc); [done|]. naive_solver.
  - rewrite Hio. simpl. destruct (decide (info_pid proc = pid)) as [<-|Hne].
    + rewrite lookup_insert_eq, bool_decide_eq_true_2 by done. naive_solver.
    + rewrite lookup_insert_ne, bool_decide_eq_false_2 by done. naive_solver.
  - rewrite Hio, Hp. destruct (decide (info_pid proc = pid)) as [<-|Hne].
    + rewrite lookup_insert_eq, bool_decide_eq_true_2 by done. naive_solver.
    + rewrite lookup_insert_ne, bool_decide_eq_false_2 by done. naive_solver.
Qed.


(** *** The loop with its float accumulators *)

(** On the counters of [big_ticks], and on other integers below and
    above 2^53, [round_f64] is the conversion of an int to a binary64
    number and [float_add_int] is the addition of binary64 numbers. *)
Lemma float_add_int_is_binary64 :
  Forall (fun n => Z_of_float (float_of_int n) = Some (round_f64 n))
    [0; 1; 90; 2 ^ 53 - 1; 2 ^ 53; 2 ^ 53 + 1; 2 ^ 53 + 2; 2 ^ 53 + 3;
     2 ^ 54 + 2; 2 ^ 54 + 6; 2 ^ 60 + 12345; 2 ^ 62 + 2 ^ 9;
     2 ^ 62 + 2 ^ 9 + 1; 2 ^ 62 + 3 * 2 ^ 9] /\
  Forall (fun p =>
            Z_of_float (PrimFloat.add (float_of_int p.1) (float_of_int p.2))
            = Some (float_add_int p.1 p.2))
    [(0, 50); (50, 30); (0, 2 ^ 53 + 1); (2 ^ 53, 1); (2 ^ 53, 2);
     (2 ^ 53, 3); (2 ^ 53 + 2, 1); (2 ^ 53 + 2, 3); (2 ^ 53 - 1, 1);
     (2 ^ 60, 2 ^ 60 + 255); (2 ^ 62, 2 ^ 62 - 1)].
Proof.
  split; repeat (constructor; [vm_compute; reflexivity|]); constructor.
Qed.


Lemma float_add_int_exact (x d : Z) :
  0 <= x -> 0 <= d -> x + d <= 2 ^ 53 -> float_add_int x d = x + d.
Proof.
  intros Hx Hd Hsum. unfold float_add_int.
  rewrite (round_f64_exact d) by lia. apply round_f64_exact. lia.
Qed.

Lemma loop_body_float_delta st proc io prior :
  io_counters proc = Returns io ->
  prev_io st !! info_pid proc = Some prior ->
  loop_body_float st proc
  = Returns
      {| prev_io := <[info_pid proc := (read_bytes io, write_bytes io)]>
                      (prev_io st);
         totals :=
           defaultdict_update (0, 0)
             (fun v => (v.1, float_add_int v.2
                               (Z.max 0 (write_bytes io - prior.2))))
             (info_pid proc, display_name proc)
             (defaultdict_update (0, 0)
                (fun v => (float_add_int v.1
                             (Z.max 0 (read_bytes io - prior.1)), v.2))
                (info_pid proc, display_name proc) (totals st)) |}.
Proof. intros Hio Hprev. unfold loop_body_float. by rewrite Hio, Hprev. Qed.

Lemma observe_float_app st procs1 procs2 :
  observe_float st (procs1 ++ procs2)
  = match observe_float st procs1 with
    | Returns st' => observe_float st' procs2
    | Raises e => Raises e
    end.
Proof.
  revert st. induction procs1 as [|proc procs1 IH]; intros st; simpl; [done|].
  destruct (loop_body_float st proc); [apply IH | done].
Qed.

Lemma observe_ticks_float_concat st ticks :
  observe_ticks_float st ticks = observe_float st (concat ticks).
Proof.
  revert st. induction ticks as [|procs ticks IH]; intros st; simpl; [done|].
  rewrite observe_float_app. destruct (observe_float st procs); [apply IH | done].
Qed.

(** The float loop and the loop without rounding see the same
    snapshots and create the same rows; only the totals can differ. *)
Lemma loop_body_float_shape st stf proc :
  same_shape st stf ->
  match loop_body st proc, loop_body_float stf proc with
  | Returns a, Returns b => same_shape a b
  | Raises e1, Raises e2 => e1 = e2
  | _, _ => False
  end.
Proof.
  intros [Hprev Hkeys]. unfold loop_body, loop_body_float. rewrite <- Hprev.
  destruct (io_counters proc) as [io|[]]; try done.
  destruct (prev_io st !! info_pid proc) as [prior|]; split; simpl; try done.
  by rewrite !defaultdict_update_keys, Hkeys.
Qed.

Lemma observe_float_shape procs : forall st stf,
  same_shape st stf ->
  match observe st procs, observe_float stf procs with
  | Returns a, Returns b => same_shape a b
  | Raises e1, Raises e2 => e1 = e2
  | _, _ => False
  end.
Proof.
  induction procs as [|proc procs IH]; intros st stf Hshape; simpl; [done|].
  pose proof (loop_body_float_shape st stf proc Hshape) as Hstep.
  destruct (loop_body st proc), (loop_body_float stf proc); try done.
  by apply IH.
Qed.

(** C1 (as amended). In delta mode, when a pid already has a stored
    snapshot [prior], a new reading [io] adds to the running total of the
    identity, by a float addition, the delta [io.read - prior.read]
    (resp. write) if that counter did not decrease and the delta zero if
    it decreased.  As long as the new total does not exceed 2^53 the
    addition is exact, so the total grows by exactly that delta.  On the
    example of the specification (100/50, then 150/80, then 140/90 for
    one pid) the totals are 50 bytes read and 40 written, 90 bytes in
    total. *)
Theorem delta_accumulation :
  (forall st proc io prior,
      io_counters proc = Returns io ->
      prev_io st !! info_pid proc = Some prior ->
      let key := (info_pid proc, display_name proc) in
      let old := total_of key (totals st) in
      let delta_read :=
        if prior.1 <=? read_bytes io then read_bytes io - prior.1 else 0 in
      let delta_write :=
        if prior.2 <=? write_bytes io then write_bytes io - prior.2 else 0 in
      exists st',
        loop_body_float st proc = Returns st' /\
        total_of key (totals st')
        = (float_add_int old.1 delta_read, float_add_int old.2 delta_write) /\
        prev_io st' !! info_pid proc = Some (read_bytes io, write_bytes io) /\
        (0 <= old.1 -> old.1 + delta_read <= 2 ^ 53 ->
         0 <= old.2 -> old.2 + delta_write <= 2 ^ 53 ->
         total_of key (totals st')
         = (old.1 + delta_read, old.2 + delta_write)))
  /\ exists st,
      observe_ticks_float initial_locals example_ticks = Returns st /\
      totals st = [((4242, "a.exe"), (50, 40))] /\
      Forall2 Qeq (map total_mb (displayed (convert (totals st)) 15))
        [(inject_Z 90 / MB)%Q].
Proof.
  split.
  - intros st proc io prior Hio Hprev key old delta_read delta_write.
    eexists. split; [by apply loop_body_float_delta|]. simpl.
    assert (Hdr : Z.max 0 (read_bytes io - prior.1) = delta_read).
    { unfold delta_read. destruct (Z.leb_spec prior.1 (read_bytes io)); lia. }
    assert (Hdw : Z.max 0 (write_bytes io - prior.2) = delta_write).
    { unfold delta_write. destruct (Z.leb_spec prior.2 (write_bytes io)); lia. }
    assert (Htot : total_of key
                     (defaultdict_update (0, 0)
                        (fun v => (v.1, float_add_int v.2
                                          (Z.max 0 (write_bytes io - prior.2))))
                        key
                        (defaultdict_update (0, 0)
                           (fun v => (float_add_int v.1
                                        (Z.max 0 (read_bytes io - prior.1)), v.2))
                           key (totals st)))
                   = (float_add_int old.1 delta_read,
                      float_add_int old.2 delta_write)).
    { unfold total_of. rewrite !defaultdict_update_get. simpl.
      by rewrite Hdr, Hdw. }
    split; [exact Htot|]. split; [by rewrite lookup_insert_eq|].
    intros H1 H1' H2 H2'. etransitivity; [exact Htot|].
    assert (0 <= delta_read /\ 0 <= delta_write) as [? ?] by lia.
    by rewrite !float_add_int_exact.
  - eexists. split; [reflexivity|]. split; [reflexivity|].
    repeat constructor.
Qed.

Lemma delta_accumulation_witness :
  exists st',
    loop_body_float after_first_tick (reading 4242 "a.exe" 150 80)
    = Returns st' /\
    total_of (4242, "a.exe") (totals st')
    = (float_add_int 0 50, float_add_int 0 30) /\
    prev_io st' !! 4242 = Some (150, 80) /\
    (0 <= 0 -> 0 + 50 <= 2 ^ 53 -> 0 <= 0 -> 0 + 30 <= 2 ^ 53 ->
     total_of (4242, "a.exe") (totals st') = (0 + 50, 0 + 30)).
Proof.
  exact (proj1 delta_accumulation after_first_tick
           (reading 4242 "a.exe" 150 80)
           {| read_bytes := 150; write_bytes := 80 |} (100, 50)
           eq_refl eq_refl).
Defined.

(** C1, the claim as stated fails.  The totals are floats.  In
    [big_ticks] the counter of bytes read goes from 0 to 2^53 + 1 and
    then to 2^53 + 2: the exact differences are 2^53 + 1 and 1, but the
    total is 2^53 after the second tick and still 2^53 after the third,
    2 bytes short of their sum. *)
Lemma float_total_drops_bytes :
  (exists st,
      observe_ticks_float initial_locals (take 2 big_ticks) = Returns st /\
      total_of (4242, "a.exe") (totals st) = (2 ^ 53, 0) /\
      2 ^ 53 <> (2 ^ 53 + 1) - 0) /\
  (exists st,
      observe_ticks_float initial_locals big_ticks = Returns st /\
      total_of (4242, "a.exe") (totals st) = (2 ^ 53, 0) /\
      2 ^ 53 <> ((2 ^ 53 + 1) - 0) + ((2 ^ 53 + 2) - (2 ^ 53 + 1))).
Proof.
  split; eexists; (split; [vm_compute; reflexivity|]); split;
    [vm_compute; reflexivity | lia | vm_compute; reflexivity | lia].
Qed.



(** ** Identities are kept apart *)






(** ** The ranked summary *)

Lemma insert_desc_map {A B : Type} (key : B -> Q) (f : A -> B) x l :
  insert_desc key (f x) (map f l) = map f (insert_desc (key ∘ f) x l).
Proof.
  induction l as [|y l IH]; simpl; [done|].
  destruct (Qle_bool (key (f y)) (key (f x))); simpl; [done|]. by rewrite IH.
Qed.

Lemma sort_reverse_map {A B : Type} (key : B -> Q) (f : A -> B) l :
  sort_reverse key (map f l) = map f (sort_reverse (key ∘ f) l).
Proof.
  induction l as [|x l IH]; simpl; [done|]. by rewrite IH, insert_desc_map.
Qed.

Lemma slice_to_map {A B : Type} (f : A -> B) n l :
  slice_to n (map f l) = map f (slice_to n l).
Proof.
  unfold slice_to. rewrite length_map.
  destruct (0 <=? n); symmetry; apply (fmap_take f).
Qed.

(** ** Starting a run *)

(** C5 (as amended). A configuration with duration <= 0 or top_n <= 0 is not
    refused.  When no run is active, [start_monitor] shows no dialog and
    starts a worker whose duration is max(1, duration), whose interval is
    max(0.1, interval) and whose top_n is max(1, top_n), so a value that is
    not positive becomes 1.  The console script, called with such a
    duration and any interval once the clock has not gone backwards,
    returns normally with an empty summary and zero samples. *)
Theorem start_clamps_configuration :
  (forall g,
      worker_alive g = false ->
      duration_var g <= 0 \/ top_var g <= 0 ->
      exists g',
        start_monitor g = (g', []) /\
        worker g' = Some (new_worker (Z.max 1 (duration_var g))
                            (Qmax (1 # 10) (interval_var g))
                            (Z.max 1 (top_var g))) /\
        worker_alive g' = true /\
        (duration_var g <= 0 -> duration <$> worker g' = Some 1) /\
        (top_var g <= 0 -> top_n <$> worker g' = Some 1))
  /\ (forall d interval start_time env trace,
         d <= 0 ->
         (start_time <= clock env)%Q ->
         monitor_disk_activity d interval start_time (env :: trace)
         = Some (Returns ([], 0%nat))).
Proof.
  split.
  - intros g Halive _. unfold start_monitor. rewrite Halive.
    eexists. split; [done|]. simpl. split; [done|]. split; [done|].
    split; intros Hle; f_equal; lia.
  - intros d interval start_time env trace Hd Hclock.
    unfold monitor_disk_activity. simpl.
    assert (Hcond : Qlt_bool (clock env - start_time) (inject_Z d) = false).
    { unfold Qlt_bool. apply negb_false_iff, Qle_bool_iff.
      apply Qle_trans with 0%Q.
      - change 0%Q with (inject_Z 0). by rewrite <- Zle_Qle.
      - by apply (Qle_minus_iff start_time (clock env)). }
    by rewrite Hcond.
Qed.

Lemma start_clamps_configuration_witness :
  exists g',
    start_monitor zero_config_gui = (g', []) /\
    worker g' = Some (new_worker 1 1 1) /\
    worker_alive g' = true /\
    (0 <= 0 -> duration <$> worker g' = Some 1) /\
    (0 <= 0 -> top_n <$> worker g' = Some 1).
Proof.
  apply (proj1 start_clamps_configuration zero_config_gui).
  - reflexivity.
  - left. simpl. lia.
Defined.

(** C5, the claim as stated fails.  With 0 in the Duration and Top N
    entries, [start_monitor] reports nothing and starts a worker for one
    second; two steps later that thread is inside its first sampling
    tick. *)
Lemma start_accepts_zero_duration :
  duration_var zero_config_gui = 0 /\
  top_var zero_config_gui = 0 /\
  (start_monitor zero_config_gui).2 = [] /\
  worker (start_monitor zero_config_gui).1 = Some (new_worker 1 1 1) /\
  worker_alive (start_monitor zero_config_gui).1 = true /\
  pc (run_steps
        [ {| clock := 0%Q; process_iter := [] |};
          {| clock := 0%Q; process_iter := [reading 4242 "a.exe" 100 50] |} ]
        (new_worker 1 1 1) []).1
  = InTick [reading 4242 "a.exe" 100 50].
Proof. repeat split. Qed.

(** C7. While the worker of the GUI is alive, [start_monitor] only shows
    the dialog "Monitoring already in progress.": the whole state of the
    application, with its worker, the totals that the worker has
    accumulated and the queue of results, is returned unchanged, and no
    new worker is created. *)
Theorem start_rejected_while_running :
  forall g,
    worker_alive g = true ->
    start_monitor g
    = (g, [showinfo "Disk Monitor" "Monitoring already in progress."]).
Proof. intros g Halive. unfold start_monitor. by rewrite Halive. Qed.

Lemma start_rejected_while_running_witness :
  start_monitor running_gui
  = (running_gui, [showinfo "Disk Monitor" "Monitoring already in progress."]).
Proof.
  apply (start_rejected_while_running running_gui). reflexivity.
Defined.

(** ** Stopping a run *)

Lemma at_state_id w : at_state w (pc w) (locals w) = w.
Proof. by destruct w. Qed.


(** Once the request is there, the tick in flight is completed, the sleep
    is taken, and the next loop test ends the run. *)
Lemma run_steps_finish_tick rest : forall w q envs st',
  pc w = InTick rest ->
  observe (locals w) rest = Returns st' ->
  length envs = (length rest + 2)%nat ->
  run_steps envs w q = (at_state w AtLoopTest st', q).
Proof.
  unfold run_steps.
  induction rest as [|proc rest IH]; intros w q envs st' Hpc Hobs Hlen.
  - destruct envs as [|e1 [|e2 [|]]]; try done. simpl in *.
    injection Hobs as <-. unfold run_step. simpl. rewrite Hpc. simpl.
    by destruct w.
  - destruct envs as [|e1 envs]; [done|]. simpl in Hlen, Hobs |- *.
    destruct (loop_body (locals w) proc) as [st1|] eqn:Hbody; [|done].
    unfold run_step at 2. rewrite Hpc, Hbody. simpl.
    rewrite (IH _ q envs st'); [done..|]. simpl. lia.
Qed.



(** ** What the worker delivers *)

Lemma convert_foldl (tot out : list (Key * (Z * Z))) :
  NoDup (out.*1 ++ tot.*1) ->
  foldl (fun out item => dict_set item.1 (item.2.1, item.2.2) out) out tot
  = out ++ tot.
Proof.
  revert out. induction tot as [|[k [r w]] tot IH]; intros out Hnd; simpl.
  - by rewrite app_nil_r.
  - simpl in Hnd. rewrite dict_set_absent.
    + rewrite IH; [by rewrite <- app_assoc|].
      rewrite fmap_app. simpl. by rewrite <- app_assoc.
    + apply NoDup_app in Hnd as (_ & Hdisj & _).
      intros Hin. apply (Hdisj k Hin). by left.
Qed.

(** The copy that is put on the queue is the totals themselves. *)
Lemma convert_id (tot : list (Key * (Z * Z))) :
  NoDup tot.*1 -> convert tot = tot.
Proof. intros Hnd. unfold convert. by rewrite convert_foldl. Qed.


(** ** Failed reads *)

Lemma observe_skip_failed st procs :
  observe st procs
  = observe st (filter (fun proc => gone_or_denied proc = false) procs).
Proof.
  revert st. induction procs as [|proc procs IH]; intros st; [done|].
  rewrite filter_cons. destruct (gone_or_denied proc) eqn:Hskip; simpl.
  - by rewrite loop_body_skip.
  - destruct (loop_body st proc); [apply IH | done].
Qed.

Lemma console_body_skip d proc :
  gone_or_denied proc = true -> console_body d proc = Returns d.
Proof.
  unfold gone_or_denied, console_body.
  destruct (io_counters proc) as [io|[]]; done.
Qed.

Lemma console_observe_skip_failed d procs :
  console_observe d procs
  = console_observe d (filter (fun proc => gone_or_denied proc = false) procs).
Proof.
  revert d. induction procs as [|proc procs IH]; intros d; [done|].
  rewrite filter_cons. destruct (gone_or_denied proc) eqn:Hskip; simpl.
  - by rewrite console_body_skip.
  - destruct (console_body d proc); [apply IH | done].
Qed.

(** C6. A process whose counter read raises NoSuchProcess or
    AccessDenied leaves the state of the worker as it was, and the tick
    goes on with the next process: a tick gives the same result as the
    tick without the failing processes, in the worker and in the console
    script; a tick in which every read either succeeds or fails in one
    of these two ways ends normally; and the thread that meets such a
    process stays alive, inside the same tick. *)
Theorem read_failures_are_skipped :
  (forall st procs,
      observe st procs
      = observe st (filter (fun proc => gone_or_denied proc = false) procs))
  /\ (forall d procs,
         console_observe d procs
         = console_observe d
             (filter (fun proc => gone_or_denied proc = false) procs))
  /\ (forall st procs,
         Forall (fun proc => gone_or_denied proc = true \/ reads_ok proc = true)
           procs ->
         exists st', observe st procs = Returns st')
  /\ (forall env w q proc rest,
         pc w = InTick (proc :: rest) ->
         gone_or_denied proc = true ->
         run_step env w q = (at_pc w (InTick rest), q) /\
         locals (run_step env w q).1 = locals w /\
         is_alive (run_step env w q).1 = true).
Proof.
  repeat apply conj.
  - apply observe_skip_failed.
  - apply console_observe_skip_failed.
  - intros st procs Hall. revert st.
    induction Hall as [|proc procs [Hskip|Hok] _ IH]; intros st; simpl.
    + by eexists.
    + rewrite loop_body_skip by done. apply IH.
    + unfold reads_ok in Hok. unfold loop_body.
      destruct (io_counters proc) as [io|]; [|done].
      destruct (prev_io st !! info_pid proc); apply IH.
  - intros env w q proc rest Hpc Hskip. unfold run_step.
    rewrite Hpc, loop_body_skip by done. done.
Qed.

Lemma read_failures_are_skipped_witness :
  run_step idle_env denied_tick_worker []
  = (at_pc denied_tick_worker (InTick [reading 4242 "a.exe" 150 80]), []) /\
  locals (run_step idle_env denied_tick_worker []).1 = after_first_tick /\
  is_alive (run_step idle_env denied_tick_worker []).1 = true.
Proof.
  apply (proj2 (proj2 (proj2 read_failures_are_skipped))
           idle_env denied_tick_worker [] (failing 4 "System" AccessDenied)
           [reading 4242 "a.exe" 150 80]); reflexivity.
Defined.

(** ** Further properties of the sampling loop *)

Lemma defaultdict_update_get_ne {K V : Type} `{EqDecision K}
    (dflt : V) (f : V -> V) (k k' : K) (d : list (K * V)) :
  k ≠ k' -> dict_get k' (defaultdict_update dflt f k d) = dict_get k' d.
Proof.
  intros Hne. unfold defaultdict_update.
  destruct (dict_get k d); by apply dict_get_set_ne.
Qed.

(** What one execution of the body does to the snapshots and to the
    running totals. *)
Lemma loop_body_effect st proc st' :
  loop_body st proc = Returns st' ->
  match io_counters proc with
  | Returns io =>
      prev_io st'
      = <[info_pid proc := (read_bytes io, write_bytes io)]> (prev_io st) /\
      match prev_io st !! info_pid proc with
      | Some prior =>
          forall key,
            total_of key (totals st')
            = if decide (key = identity proc)
              then ((total_of key (totals st)).1
                    + Z.max 0 (read_bytes io - prior.1),
                    (total_of key (totals st)).2
                    + Z.max 0 (write_bytes io - prior.2))
              else total_of key (totals st)
      | None => totals st' = totals st
      end
  | Raises _ => st' = st
  end.
Proof.
  intros Hbody. destruct (io_counters proc) as [io|e] eqn:Hio.
  - destruct (prev_io st !! info_pid proc) as [prior|] eqn:Hprev.
    + rewrite (loop_body_delta _ _ _ _ Hio Hprev) in Hbody.
      injection Hbody as <-. simpl. split; [done|]. intros key.
      unfold total_of, identity. case_decide as Hkey.
      * subst key. by rewrite !defaultdict_update_get.
      * by rewrite !defaultdict_update_get_ne.
    + rewrite (loop_body_baseline _ _ _ Hio Hprev) in Hbody.
      by injection Hbody as <-.
  - unfold loop_body in Hbody. rewrite Hio in Hbody.
    destruct e; [by injection Hbody as <- ..|done].
Qed.

Lemma loop_body_prev st proc st' p :
  loop_body st proc = Returns st' ->
  prev_io st' !! p
  = match readings_of p [proc] with
    | v :: _ => Some v
    | [] => prev_io st !! p
    end.
Proof.
  intros Hbody. apply loop_body_effect in Hbody.
  unfold readings_of. simpl.
  destruct (io_counters proc) as [io|e]; [|by subst].
  destruct Hbody as [-> _]. case_decide as Hp; simpl.
  - subst p. by rewrite lookup_insert_eq.
  - by rewrite lookup_insert_ne.
Qed.




Lemma readings_of_cons p proc procs :
  readings_of p (proc :: procs)
  = match io_counters proc with
    | Returns io =>
        if decide (info_pid proc = p)
        then (read_bytes io, write_bytes io) :: readings_of p procs
        else readings_of p procs
    | Raises _ => readings_of p procs
    end.
Proof.
  unfold readings_of. simpl.
  destruct (io_counters proc); [by case_decide | done].
Qed.

(** The total of an identity moves by the clamped growth of the counters
    of its pid, as long as the pid keeps its name. *)
Lemma observe_growth p nm procs : forall st st',
  observe st procs = Returns st' ->
  Forall (fun proc => info_pid proc = p -> reads_ok proc = true ->
                      display_name proc = nm) procs ->
  total_of (p, nm) (totals st')
  = ((total_of (p, nm) (totals st)).1 + growth (history st p procs).*1,
     (total_of (p, nm) (totals st)).2 + growth (history st p procs).*2).
Proof.
  induction procs as [|proc procs IH]; intros st st'; simpl.
  - intros [= <-] _. unfold history. simpl.
    destruct (prev_io st !! p); simpl; rewrite !Z.add_0_r;
      by destruct (total_of (p, nm) (totals st)).
  - destruct (loop_body st proc) as [st1|] eqn:Hbody; [|done].
    intros Hobs Hall. apply Forall_cons in Hall as [Hnm Hall].
    rewrite (IH st1 st' Hobs Hall). clear IH Hobs Hall.
    unfold history. rewrite readings_of_cons.
    pose proof (loop_body_prev _ _ _ p Hbody) as Hprev.
    rewrite readings_of_cons in Hprev.
    apply loop_body_effect in Hbody. unfold reads_ok in Hnm.
    destruct (io_counters proc) as [io|e]; [|by subst].
    destruct Hbody as [_ Htot].
    destruct (decide (info_pid proc = p)) as [Hp|Hp]; simpl in Hprev.
    + specialize (Hnm Hp eq_refl). rewrite Hprev. rewrite Hp in Htot.
      destruct (prev_io st !! p) as [prior|]; simpl.
      * rewrite (Htot (p, nm)). unfold identity.
        rewrite decide_True by (by rewrite Hp, Hnm). simpl.
        f_equal; lia.
      * by rewrite Htot.
    + rewrite Hprev. f_equal; f_equal.
      all: destruct (prev_io st !! info_pid proc) as [prior|];
        [rewrite (Htot (p, nm)), decide_False;
           [done | unfold identity; congruence]
        | by rewrite Htot].
Qed.

Lemma clamped_growth_bounds base values :
  0 <= clamped_growth base values /\
  default base (last values) - base <= clamped_growth base values.
Proof.
  revert base. induction values as [|v values IH]; intros base; simpl; [lia|].
  destruct (IH v) as [H0 Hnet]. split; [lia|].
  destruct values as [|v' values]; simpl in *; [lia|].
  destruct (proj2 (last_is_Some (v' :: values))) as [x Hx]; [done|].
  rewrite Hx in *. simpl in *. lia.
Qed.

Lemma clamped_growth_sorted base values :
  Sorted Z.le (base :: values) ->
  clamped_growth base values = default base (last values) - base.
Proof.
  revert base. induction values as [|v values IH]; intros base Hs; simpl; [lia|].
  apply Sorted_inv in Hs as [Hs Hhd]. apply HdRel_inv in Hhd.
  rewrite (IH v Hs).
  destruct values as [|v' values]; simpl; [lia|].
  destruct (proj2 (last_is_Some (v' :: values))) as [x Hx]; [done|].
  rewrite Hx. simpl. lia.
Qed.

Lemma defaultdict_update_ext {K V : Type} `{EqDecision K}
    (dflt : V) (f g : V -> V) (k : K) (d : list (K * V)) :
  f (default dflt (dict_get k d)) = g (default dflt (dict_get k d)) ->
  defaultdict_update dflt f k d = defaultdict_update dflt g k d.
Proof.
  unfold defaultdict_update. destruct (dict_get k d); simpl; by intros ->.
Qed.

Lemma loop_body_grows st proc st' key :
  loop_body st proc = Returns st' ->
  (total_of key (totals st)).1 <= (total_of key (totals st')).1 /\
  (total_of key (totals st)).2 <= (total_of key (totals st')).2.
Proof.
  intros Hbody. apply loop_body_effect in Hbody.
  destruct (io_counters proc) as [io|e]; [|by subst].
  destruct Hbody as [_ Htot].
  destruct (prev_io st !! info_pid proc) as [prior|]; [|by rewrite Htot].
  rewrite (Htot key). case_decide; simpl; lia.
Qed.

Lemma observe_grows procs : forall st st' key,
  observe st procs = Returns st' ->
  (total_of key (totals st)).1 <= (total_of key (totals st')).1 /\
  (total_of key (totals st)).2 <= (total_of key (totals st')).2.
Proof.
  induction procs as [|proc procs IH]; intros st st' key; simpl.
  - intros [= <-]. lia.
  - destruct (loop_body st proc) as [st1|] eqn:Hbody; [|done]. intros Hobs.
    pose proof (loop_body_grows _ _ _ key Hbody).
    pose proof (IH _ _ key Hobs). lia.
Qed.

(** As long as no total exceeds 2^53, no float addition rounds: the
    float loop does what the loop without rounding does. *)
Lemma loop_body_float_exact st proc st' :
  loop_body st proc = Returns st' ->
  totals_nonneg st -> totals_exact st' ->
  loop_body_float st proc = Returns st'.
Proof.
  intros Hbody Hnn Hex. pose proof Hbody as Heff. apply loop_body_effect in Heff.
  unfold loop_body in Hbody. unfold loop_body_float.
  destruct (io_counters proc) as [io|e]; [|done].
  destruct Heff as [_ Htot].
  destruct (prev_io st !! info_pid proc) as [prior|]; [|done].
  rewrite <- Hbody. do 2 f_equal.
  set (key := (info_pid proc, display_name proc)) in *.
  specialize (Htot key). rewrite decide_True in Htot by done.
  destruct (Hnn key) as [Hn1 Hn2]. destruct (Hex key) as [He1 He2].
  rewrite Htot in He1, He2. simpl in He1, He2.
  assert (H1 : defaultdict_update (0, 0)
                 (fun v => (float_add_int v.1
                              (Z.max 0 (read_bytes io - prior.1)), v.2))
                 key (totals st)
               = defaultdict_update (0, 0)
                   (fun v => (v.1 + Z.max 0 (read_bytes io - prior.1), v.2))
                   key (totals st)).
  { apply defaultdict_update_ext. fold (total_of key (totals st)).
    f_equal. apply float_add_int_exact; lia. }
  rewrite H1. apply defaultdict_update_ext.
  rewrite defaultdict_update_get. simpl. fold (total_of key (totals st)).
  f_equal. apply float_add_int_exact; lia.
Qed.

Lemma observe_float_exact procs : forall st st',
  observe st procs = Returns st' ->
  totals_nonneg st -> totals_exact st' ->
  observe_float st procs = Returns st'.
Proof.
  induction procs as [|proc procs IH]; intros st st' Hobs Hnn Hex;
    simpl in *; [done|].
  destruct (loop_body st proc) as [st1|] eqn:Hbody; [|done].
  assert (Hnn1 : totals_nonneg st1).
  { intros key. pose proof (loop_body_grows _ _ _ key Hbody).
    pose proof (Hnn key). lia. }
  assert (Hex1 : totals_exact st1).
  { intros key. pose proof (observe_grows _ _ _ key Hobs).
    pose proof (Hex key). lia. }
  rewrite (loop_body_float_exact _ _ _ Hbody Hnn Hex1). by apply IH.
Qed.

(** X2. While a pid keeps its name and no total exceeds 2^53, the float
    loop is exact: over any sequence of processes the total of the
    identity grows by the sum of the increases between consecutive
    successful readings of the pid, starting from the snapshot held
    before; decreases count for nothing. *)
Theorem total_is_clamped_growth :
  forall p nm procs st st',
    observe st procs = Returns st' ->
    totals_nonneg st ->
    totals_exact st' ->
    Forall (fun proc => info_pid proc = p -> reads_ok proc = true ->
                        display_name proc = nm) procs ->
    observe_float st procs = Returns st' /\
    total_of (p, nm) (totals st')
    = ((total_of (p, nm) (totals st)).1 + growth (history st p procs).*1,
       (total_of (p, nm) (totals st)).2 + growth (history st p procs).*2).
Proof.
  intros p nm procs st st' Hobs Hnn Hex Hall. split.
  - by apply observe_float_exact.
  - by apply observe_growth.
Qed.

Lemma total_is_clamped_growth_witness :
  observe_float initial_locals (concat example_ticks)
  = Returns {| prev_io := {[ 4242 := (140, 90) ]};
               totals := [((4242, "a.exe"), (50, 40))] |} /\
  total_of (4242, "a.exe") [((4242, "a.exe"), (50, 40))]
  = (0 + growth [100; 150; 140], 0 + growth [50; 80; 90]).
Proof.
  apply (total_is_clamped_growth 4242 "a.exe" (concat example_ticks)
           initial_locals
           {| prev_io := {[ 4242 := (140, 90) ]};
              totals := [((4242, "a.exe"), (50, 40))] |}).
  - reflexivity.
  - intros key. simpl. lia.
  - intros key. unfold total_of. simpl. case_decide; simpl; lia.
  - repeat constructor.
Defined.

(** X3. When the counters of a pid never decrease, the pid keeps its
    name and no total exceeds 2^53, the float loop gives, over a run
    from the start, a total of its identity that is the last reading
    minus the first one: nothing is counted twice and nothing from
    before the first reading is counted.  Under the same bound and
    whatever the counters do, the total is never below that
    difference. *)
Theorem monotone_counters_telescope :
  forall p nm ticks st first rest,
    observe_ticks initial_locals ticks = Returns st ->
    totals_exact st ->
    Forall (fun proc => info_pid proc = p -> reads_ok proc = true ->
                        display_name proc = nm) (concat ticks) ->
    readings_of p (concat ticks) = first :: rest ->
    let final := default first (last rest) in
    observe_ticks_float initial_locals ticks = Returns st /\
    (final.1 - first.1 <= (total_of (p, nm) (totals st)).1 /\
     final.2 - first.2 <= (total_of (p, nm) (totals st)).2) /\
    (Sorted Z.le (first :: rest).*1 -> Sorted Z.le (first :: rest).*2 ->
     total_of (p, nm) (totals st) = (final.1 - first.1, final.2 - first.2)).
Proof.
  intros p nm ticks st first rest Hobs Hex Hall Hread final.
  rewrite observe_ticks_concat in Hobs.
  assert (Hfloat : observe_ticks_float initial_locals ticks = Returns st).
  { rewrite observe_ticks_float_concat.
    apply observe_float_exact; [done| |done].
    intros key. unfold total_of. simpl. lia. }
  split; [done|].
  pose proof (observe_growth p nm _ _ _ Hobs Hall) as Htot.
  unfold history in Htot. rewrite Hread in Htot.
  change (prev_io initial_locals) with (∅ : gmap Z (Z * Z)) in Htot.
  rewrite lookup_empty in Htot.
  change (option_list None ++ first :: rest) with (first :: rest) in Htot.
  rewrite !fmap_cons in Htot. unfold growth in Htot.
  change (total_of (p, nm) (totals initial_locals)) with (0, 0) in Htot.
  assert (Hl1 : default first.1 (last rest.*1) = final.1).
  { unfold final. rewrite fmap_last. by destruct (last rest). }
  assert (Hl2 : default first.2 (last rest.*2) = final.2).
  { unfold final. rewrite fmap_last. by destruct (last rest). }
  split.
  - rewrite Htot. simpl.
    pose proof (clamped_growth_bounds first.1 rest.*1) as [_ H1].
    pose proof (clamped_growth_bounds first.2 rest.*2) as [_ H2].
    rewrite Hl1 in H1. rewrite Hl2 in H2. lia.
  - intros Hs1 Hs2. rewrite Htot. rewrite fmap_cons in Hs1, Hs2.
    rewrite (clamped_growth_sorted first.1 rest.*1 Hs1).
    rewrite (clamped_growth_sorted first.2 rest.*2 Hs2). simpl.
    by rewrite Hl1, Hl2.
Qed.

Lemma monotone_counters_telescope_witness :
  observe_ticks_float initial_locals tie_ticks
  = Returns {| prev_io := {[ 7 := (10, 0); 3 := (10, 0) ]};
               totals := tie_result |} /\
  total_of (7, "late.exe") tie_result = (10 - 0, 0 - 0).
Proof.
  destruct (monotone_counters_telescope 7 "late.exe" tie_ticks
              {| prev_io := {[ 7 := (10, 0); 3 := (10, 0) ]};
                 totals := tie_result |}
              (0, 0) [(10, 0); (10, 0)]) as (Hrun & _ & Htel).
  - vm_compute. reflexivity.
  - intros key. unfold total_of. simpl. repeat case_decide; simpl; lia.
  - repeat (constructor; [by simpl; intros|]). constructor.
  - reflexivity.
  - split; [exact Hrun|]. apply Htel; repeat constructor; simpl; lia.
Defined.






Lemma seen_cons p proc procs :
  seen p (proc :: procs) = seen p [proc] || seen p procs.
Proof. unfold seen. simpl. by rewrite orb_false_r. Qed.

Lemma loop_body_prev_is_Some st proc st' p :
  loop_body st proc = Returns st' ->
  is_Some (prev_io st' !! p)
  <-> is_Some (prev_io st !! p) \/ seen p [proc] = true.
Proof.
  intros Hbody. pose proof (loop_body_prev_None _ _ _ p Hbody) as Hnone.
  rewrite <- !not_eq_None_Some, Hnone.
  destruct (seen p [proc]); destruct (prev_io st !! p); naive_solver.
Qed.

Lemma loop_body_keys st proc st' key :
  loop_body st proc = Returns st' ->
  key ∈ (totals st').*1
  <-> key ∈ (totals st).*1
      \/ (reads_ok proc = true /\ identity proc = key /\
          is_Some (prev_io st !! key.1)).
Proof.
  intros Hbody. unfold reads_ok, identity.
  destruct (loop_body_cases _ _ _ Hbody)
    as [[Hskip ->]|[(io & Hio & Hprev & ->)|(io & prior & Hio & Hprev & _ & _ & Hk)]].
  - unfold gone_or_denied in Hskip.
    destruct (io_counters proc); [done|]. naive_solver.
  - simpl. rewrite Hio. split; [by left|]. intros [?|(_ & <- & Hsome)]; [done|].
    simpl in Hsome. rewrite Hprev in Hsome. by destruct Hsome.
  - rewrite Hk, Hio. case_decide as Hin.
    + split; [by left|]. by intros [?|(_ & <- & _)].
    + rewrite elem_of_app, list_elem_of_singleton. split.
      * intros [?| ->]; [by left|]. right. simpl. by rewrite Hprev.
      * intros [?|(_ & <- & _)]; [by left | by right].
Qed.

(** An identity has a row exactly when it had one before or when one of
    its successful readings came at a moment when its pid already had a
    snapshot. *)
Lemma observe_keys procs : forall st st' key,
  observe st procs = Returns st' ->
  key ∈ (totals st').*1
  <-> key ∈ (totals st).*1
      \/ exists a proc b,
           procs = a ++ proc :: b /\ reads_ok proc = true /\
           identity proc = key /\
           (is_Some (prev_io st !! key.1) \/ seen key.1 a = true).
Proof.
  induction procs as [|proc0 procs IH]; intros st st' key; simpl.
  - intros [= <-]. split; [by left|]. intros [?|(a & proc & b & Hnil & _)]; [done|].
    by destruct a.
  - destruct (loop_body st proc0) as [st1|] eqn:Hbody; [|done]. intros Hobs.
    rewrite (IH _ _ key Hobs), (loop_body_keys _ _ _ key Hbody).
    split.
    + intros [[Hin|(Hok & Hid & Hsome)]|(a & proc & b & -> & Hok & Hid & Hcond)].
      * by left.
      * right. exists [], proc0, procs. repeat split; [done..|by left].
      * right. exists (proc0 :: a), proc, b. repeat split; [done..|].
        rewrite seen_cons, orb_true_iff.
        rewrite (loop_body_prev_is_Some _ _ _ key.1 Hbody) in Hcond. tauto.
    + intros [Hin|(a & proc & b & Heq & Hok & Hid & Hcond)]; [by left; left|].
      destruct a as [|proc1 a]; simpl in Heq; injection Heq as <- ->.
      * left. right. repeat split; [done..|].
        by destruct Hcond as [?|?].
      * right. exists a, proc, b. repeat split; [done..|].
        rewrite seen_cons, orb_true_iff in Hcond.
        rewrite (loop_body_prev_is_Some _ _ _ key.1 Hbody). tauto.
Qed.



(** ** The ranked summary, continued *)

Lemma descending_bytes (items : list (Key * (Z * Z))) :
  Forall (fun item => Z.abs (total_bytes item) <= 2 ^ 53) items ->
  descending (total_mb ∘ row_of) items ->
  StronglySorted (fun a b => total_bytes b <= total_bytes a) items.
Proof.
  unfold descending. intros Hb Hs. induction Hs as [|a items Hs IH Ha].
  - constructor.
  - apply Forall_cons in Hb as [Hba Hb]. constructor; [by apply IH|].
    rewrite Forall_forall in Ha, Hb |- *. intros b Hin.
    apply (total_mb_le b a); [by apply Hb | done | by apply Ha].
Qed.

Lemma console_descending_bytes (items : list (option string * (Z * Z))) :
  Forall (fun item => Z.abs (item.2.1 + item.2.2) <= 2 ^ 53) items ->
  descending (c_total_mb ∘ console_row_of) items ->
  StronglySorted (fun a b => b.2.1 + b.2.2 <= a.2.1 + a.2.2) items.
Proof.
  unfold descending. intros Hb Hs. induction Hs as [|a items Hs IH Ha].
  - constructor.
  - apply Forall_cons in Hb as [Hba Hb]. constructor; [by apply IH|].
    rewrite Forall_forall in Ha, Hb |- *. intros b Hin.
    apply (c_total_mb_le b a); [by apply Hb | done | by apply Ha].
Qed.

Lemma slice_to_subseteq {A : Type} (n : Z) (l : list A) : slice_to n l ⊆ l.
Proof.
  destruct (slice_to_prefix n l) as [rest Hrest]. intros x Hx.
  rewrite Hrest. apply elem_of_app. by left.
Qed.

(** What a run from the start leaves in the totals, whatever the
    rounding. *)
Lemma observe_ticks_float_rows ticks st :
  observe_ticks_float initial_locals ticks = Returns st ->
  convert (totals st) = totals st /\
  NoDup (totals st).*1 /\
  forall key, key ∈ (totals st).*1 <-> read_again key (concat ticks).
Proof.
  intros Hobs. rewrite observe_ticks_float_concat in Hobs.
  pose proof (observe_float_shape (concat ticks) initial_locals initial_locals
                (conj eq_refl eq_refl)) as Hshape.
  rewrite Hobs in Hshape.
  destruct (observe initial_locals (concat ticks)) as [st0|] eqn:Hobs0; [|done].
  destruct Hshape as [_ Hkeys].
  destruct (observe_wf _ _ _ initial_locals_wf Hobs0) as [Hnd _].
  rewrite <- Hkeys. split; [apply convert_id; by rewrite <- Hkeys|].
  split; [done|]. intros key. rewrite (observe_keys _ _ _ key Hobs0).
  unfold read_again, identity. simpl. split.
  - intros [Hin|(a & proc & b & Heq & Hok & Hid & [Hsome|Hseen])].
    + by apply elem_of_nil in Hin.
    + rewrite lookup_empty in Hsome. by destruct Hsome.
    + by exists a, proc, b.
  - intros (a & proc & b & Heq & Hok & Hid & Hseen).
    right. exists a, proc, b. repeat split; [done..|by right].
Qed.

(** C3 (as amended). The rows that the GUI shows are in descending order
    of their float key [total_mb], which is the total in bytes rounded
    to a float and divided by 2^20, hence in descending order of their
    total in bytes whenever no total exceeds 2^53; rows with equal keys
    keep the order in which their identities entered the result (the
    sort is stable, the pid plays no part); and when the Top N field
    holds a number that is not negative, the number of rows is the
    minimum of that number and the number of rows of the result.  The
    result of a run has one row for each identity that was read again,
    that is, read successfully after an earlier successful reading of
    its pid, and no other row.  The rows that the console script hands
    to its print loop are ranked in the same way, by name instead of
    identity, and there are min(15, number of names) of them. *)
Theorem ranked_summary_sorted :
  (forall (result : SampleResult) (top_n : Z),
      descending total_mb (displayed result top_n) /\
      (exists rest, sorted_rows result = displayed result top_n ++ rest) /\
      (forall q, with_key total_mb q (sorted_rows result)
                 = with_key total_mb q (map row_of result)) /\
      (Forall (fun item => Z.abs (total_bytes item) <= 2 ^ 53) result ->
       exists items,
         displayed result top_n = map row_of items /\
         items ⊆ result /\
         StronglySorted (fun a b => total_bytes b <= total_bytes a) items) /\
      (0 <= top_n ->
       Z.of_nat (length (displayed result top_n))
       = Z.min top_n (Z.of_nat (length result))))
  /\ (forall ticks st,
         observe_ticks_float initial_locals ticks = Returns st ->
         convert (totals st) = totals st /\
         NoDup (totals st).*1 /\
         (forall key, key ∈ (totals st).*1 <-> read_again key (concat ticks)) /\
         forall top_n,
           0 <= top_n ->
           Z.of_nat (length (displayed (convert (totals st)) top_n))
           = Z.min top_n (Z.of_nat (length (totals st).*1)))
  /\ (forall process_io,
         descending c_total_mb (console_summary process_io) /\
         (exists rest,
             sort_reverse c_total_mb (map console_row_of process_io)
             = console_summary process_io ++ rest) /\
         (forall q,
             with_key c_total_mb q
               (sort_reverse c_total_mb (map console_row_of process_io))
             = with_key c_total_mb q (map console_row_of process_io)) /\
         (Forall (fun item => Z.abs (item.2.1 + item.2.2) <= 2 ^ 53)
            process_io ->
          exists items,
            console_summary process_io = map console_row_of items /\
            items ⊆ process_io /\
            StronglySorted (fun a b => b.2.1 + b.2.2 <= a.2.1 + a.2.2) items) /\
         Z.of_nat (length (console_summary process_io))
         = Z.min 15 (Z.of_nat (length process_io))).
Proof.
  repeat apply conj.
  - intros result top_n. unfold displayed, sorted_rows. repeat apply conj.
    + apply descending_slice_to, sort_reverse_descending.
    + apply slice_to_prefix.
    + intros q. apply sort_reverse_stable.
    + intros Hb.
      exists (slice_to top_n (sort_reverse (total_mb ∘ row_of) result)).
      rewrite sort_reverse_map, slice_to_map. split; [done|].
      assert (Hsub : slice_to top_n (sort_reverse (total_mb ∘ row_of) result)
                     ⊆ result).
      { intros x Hx%slice_to_subseteq.
        by rewrite sort_reverse_perm in Hx. }
      split; [done|]. apply descending_bytes.
      * rewrite Forall_forall in Hb |- *. intros x Hx. by apply Hb, Hsub.
      * apply descending_slice_to, sort_reverse_descending.
    + intros Hn. rewrite slice_to_length by done.
      by rewrite sort_reverse_length, length_map.
  - intros ticks st Hobs.
    destruct (observe_ticks_float_rows ticks st Hobs) as (Hconv & Hnd & Hkeys).
    split; [done|]. split; [done|]. split; [done|].
    intros top_n Hn. rewrite Hconv. unfold displayed, sorted_rows.
    rewrite slice_to_length by done.
    by rewrite sort_reverse_length, length_map, length_fmap.
  - intros process_io. unfold console_summary. repeat apply conj.
    + apply descending_slice_to, sort_reverse_descending.
    + apply slice_to_prefix.
    + intros q. apply sort_reverse_stable.
    + intros Hb.
      exists (slice_to 15
                (sort_reverse (c_total_mb ∘ console_row_of) process_io)).
      rewrite sort_reverse_map, slice_to_map. split; [done|].
      assert (Hsub : slice_to 15
                       (sort_reverse (c_total_mb ∘ console_row_of) process_io)
                     ⊆ process_io).
      { intros x Hx%slice_to_subseteq.
        by rewrite sort_reverse_perm in Hx. }
      split; [done|]. apply console_descending_bytes.
      * rewrite Forall_forall in Hb |- *. intros x Hx. by apply Hb, Hsub.
      * apply descending_slice_to, sort_reverse_descending.
    + rewrite slice_to_length by done.
      by rewrite sort_reverse_length, length_map.
Qed.

Lemma ranked_summary_sorted_witness :
  exists st,
    observe_ticks_float initial_locals tie_ticks = Returns st /\
    Z.of_nat (length (displayed (convert (totals st)) 1))
    = Z.min 1 (Z.of_nat (length (totals st).*1)).
Proof.
  eexists. split; [reflexivity|].
  apply (proj1 (proj2 ranked_summary_sorted) tie_ticks); [reflexivity | done].
Defined.

(** C3, the claim as stated fails.  In [tie_ticks] pid 7 gets its row one
    tick before pid 3 and both end with 10 bytes: the summary lists pid 7
    before pid 3, so ties are not broken by ascending pid.  And in a run
    of one tick two identities are observed, but neither has a row, so
    with 15 in the Top N field no row is shown, not min(15, 2). *)
Lemma summary_ties_not_by_pid :
  (exists st, observe_ticks_float initial_locals tie_ticks = Returns st /\
              convert (totals st) = tie_result) /\
  ~ ranked_by_total_then_pid (displayed tie_result 15) /\
  (exists st, observe_ticks_float initial_locals single_tick = Returns st /\
              length (observed_identities single_tick) = 2%nat /\
              Z.of_nat (length (displayed (convert (totals st)) 15))
              <> Z.min 15 (Z.of_nat (length (observed_identities single_tick)))).
Proof.
  split; [eexists; split; reflexivity|]. split.
  - unfold ranked_by_total_then_pid. intros Hs.
    apply StronglySorted_inv in Hs as [_ Hall].
    apply Forall_cons in Hall as [[Hlt|[_ Hpid]] _].
    + vm_compute in Hlt. done.
    + vm_compute in Hpid. done.
  - eexists. split; [reflexivity|]. split; [reflexivity|].
    vm_compute. done.
Qed.

(** ** What the worker delivers, and what is shown of it *)






(** ** Reading the summary *)




(** ** A whole run of the thread *)

Lemma run_steps_app envs1 envs2 w q :
  run_steps (envs1 ++ envs2) w q
  = run_steps envs2 (run_steps envs1 w q).1 (run_steps envs1 w q).2.
Proof.
  unfold run_steps. rewrite foldl_app.
  by destruct (foldl _ (w, q) envs1).
Qed.

Lemma run_steps_cons env envs w q :
  run_steps (env :: envs) w q
  = run_steps envs (run_step env w q).1 (run_step env w q).2.
Proof. unfold run_steps. simpl. by destruct (run_step env w q). Qed.

(** One tick, from loop test to loop test. *)
Lemma run_steps_tick tick w q st1 :
  pc w = AtLoopTest ->
  stopped w = false ->
  Qlt_bool (clock tick) (end_time w) = true ->
  observe (locals w) (process_iter tick) = Returns st1 ->
  run_steps (tick_schedule tick) w q = (at_state w AtLoopTest st1, q).
Proof.
  intros Hpc Hstop Hnow Htick. unfold tick_schedule.
  replace (length (process_iter tick) + 3)%nat
    with (S (length (process_iter tick) + 2)) by lia.
  cbn [replicate]. rewrite run_steps_cons.
  assert (Hfirst : run_step tick w q
                   = (at_pc w (InTick (process_iter tick)), q)).
  { unfold run_step. by rewrite Hpc, Hnow, Hstop. }
  rewrite Hfirst. cbn [fst snd].
  by rewrite (run_steps_finish_tick (process_iter tick) _ q _ st1);
    [|done|done|rewrite length_replicate].
Qed.

Lemma run_steps_ticks ticks : forall w q st',
  pc w = AtLoopTest ->
  stopped w = false ->
  Forall (fun tick => Qlt_bool (clock tick) (end_time w) = true) ticks ->
  observe_ticks (locals w) (map process_iter ticks) = Returns st' ->
  run_steps (concat (map tick_schedule ticks)) w q
  = (at_state w AtLoopTest st', q).
Proof.
  induction ticks as [|tick ticks IH]; intros w q st' Hpc Hstop Hin Hobs.
  - simpl in *. injection Hobs as <-. unfold run_steps. simpl.
    by rewrite <- Hpc, at_state_id.
  - simpl in Hobs.
    destruct (observe (locals w) (process_iter tick)) as [st1|] eqn:Htick;
      [|done].
    apply Forall_cons in Hin as [Hnow Hin]. cbn [map concat].
    rewrite run_steps_app, (run_steps_tick tick w q st1) by done.
    cbn [fst snd]. by rewrite (IH _ q st').
Qed.

(** X7. A worker that has entered its loop with nothing accumulated, is
    not stopped, sleeps for an interval that is not negative and meets
    no read that raises anything but the two caught errors performs one
    tick for every loop test at which the clock is before its end time,
    and at the first loop test at or after the end time it puts on the
    queue exactly the totals that the ticks accumulate from the empty
    state, and is finished.  As long as none of these totals exceeds
    2^53 they are the totals that the float loop accumulates. *)
Theorem run_delivers_observed_totals :
  forall w q ticks final st,
    pc w = AtLoopTest ->
    locals w = initial_locals ->
    stopped w = false ->
    (0 <= interval w)%Q ->
    Forall (fun tick => Qlt_bool (clock tick) (end_time w) = true) ticks ->
    Qlt_bool (clock final) (end_time w) = false ->
    observe_ticks initial_locals (map process_iter ticks) = Returns st ->
    totals_exact st ->
    observe_ticks_float initial_locals (map process_iter ticks) = Returns st /\
    run_steps (concat (map tick_schedule ticks) ++ [final]) w q
    = (at_state w Finished st, q ++ [totals st]).
Proof.
  intros w q ticks final st Hpc Hloc Hstop Hint Hin Hout Hobs Hex. split.
  - rewrite observe_ticks_float_concat. rewrite observe_ticks_concat in Hobs.
    apply observe_float_exact; [done| |done].
    intros key. unfold total_of. simpl. lia.
  - rewrite run_steps_app.
    rewrite (run_steps_ticks ticks w q st); [|done..|by rewrite Hloc].
    simpl. unfold run_steps. simpl. unfold run_step. simpl.
    rewrite Hout. simpl. rewrite convert_id; [done|].
    rewrite observe_ticks_concat in Hobs.
    by destruct (observe_wf _ _ _ initial_locals_wf Hobs).
Qed.

Lemma run_delivers_observed_totals_witness :
  observe_ticks_float initial_locals example_ticks
  = Returns {| prev_io := {[ 4242 := (140, 90) ]};
               totals := [((4242, "a.exe"), (50, 40))] |} /\
  run_steps
    (concat (map tick_schedule
       [ {| clock := 0%Q; process_iter := [reading 4242 "a.exe" 100 50] |};
         {| clock := 1%Q; process_iter := [reading 4242 "a.exe" 150 80] |};
         {| clock := 2%Q; process_iter := [reading 4242 "a.exe" 140 90] |} ])
     ++ [ {| clock := 3%Q; process_iter := [] |} ])
    example_looping_worker []
  = (at_state example_looping_worker
       Finished
       {| prev_io := {[ 4242 := (140, 90) ]};
          totals := [((4242, "a.exe"), (50, 40))] |},
     [] ++ [ [((4242, "a.exe"), (50, 40))] ]).
Proof.
  apply (run_delivers_observed_totals
           example_looping_worker []
           [ {| clock := 0%Q; process_iter := [reading 4242 "a.exe" 100 50] |};
             {| clock := 1%Q; process_iter := [reading 4242 "a.exe" 150 80] |};
             {| clock := 2%Q; process_iter := [reading 4242 "a.exe" 140 90] |} ]
           {| clock := 3%Q; process_iter := [] |}).
  - reflexivity.
  - reflexivity.
  - reflexivity.
  - done.
  - repeat constructor.
  - reflexivity.
  - reflexivity.
  - intros key. unfold total_of. simpl. case_decide; simpl; lia.
Defined.

(** ** The application as a whole *)

Lemma handle_all_app g evs1 evs2 :
  handle_all g (evs1 ++ evs2) = handle_all (handle_all g evs1) evs2.
Proof. unfold handle_all. apply foldl_app. Qed.

Lemma start_monitor_inv g : gui_inv g -> gui_inv (start_monitor g).1.
Proof.
  intros Hinv. unfold start_monitor.
  destruct (worker_alive g); [done|]. unfold gui_inv. simpl.
  split; [apply initial_locals_wf | done].
Qed.

Lemma stop_monitor_inv g : gui_inv g -> gui_inv (stop_monitor g).
Proof.
  unfold stop_monitor, gui_inv.
  destruct (worker g) as [w|] eqn:Hw; [|by rewrite Hw].
  destruct (is_alive w) eqn:Halive; [|by rewrite Hw]. simpl.
  unfold is_alive in Halive. intros [Hwf Hpc]. split; [done|].
  destruct (pc w); try done; naive_solver.
Qed.

Lemma _periodic_poll_inv g : gui_inv g -> gui_inv (_periodic_poll g).
Proof.
  unfold _periodic_poll, gui_inv.
  destruct (result_queue g) as [|result queue'] eqn:Hq; [by rewrite Hq|].
  simpl. destruct (worker g) as [w|]; [|done].
  intros [Hwf Hpc]. split; [done|].
  destruct (pc w); try (by destruct Hpc).
  destruct Hpc as [?|[= _ ->]]; [done | by left].
Qed.

Lemma worker_step_inv env g : gui_inv g -> gui_inv (worker_step env g).
Proof.
  unfold worker_step, gui_inv.
  destruct (worker g) as [w|] eqn:Hw; [|by rewrite Hw].
  intros [Hwf Hpc]. unfold run_step.
  destruct (pc w) as [| |[|proc rest]| | |e] eqn:Hpcw; simpl.
  - done.
  - destruct (Qlt_bool (clock env) (end_time w) && negb (stopped w)); simpl.
    + done.
    + split; [done|]. right. destruct Hpc as (-> & _).
      rewrite convert_id; [done | by destruct Hwf].
  - done.
  - destruct (loop_body (locals w) proc) as [st'|e] eqn:Hbody; simpl.
    + split; [by eapply loop_body_wf | done].
    + done.
  - done.
  - by rewrite Hpcw.
  - by rewrite Hpcw.
Qed.

Lemma handle_inv g ev : gui_inv g -> gui_inv (handle g ev).
Proof.
  destruct ev; simpl.
  - apply start_monitor_inv.
  - apply stop_monitor_inv.
  - apply _periodic_poll_inv.
  - apply worker_step_inv.
  - done.
  - done.
  - done.
Qed.

Lemma handle_all_inv evs : forall g, gui_inv g -> gui_inv (handle_all g evs).
Proof.
  unfold handle_all. induction evs as [|ev evs IH]; intros g Hinv; [done|].
  simpl. by apply IH, handle_inv.
Qed.

(** X8. Whatever the user and the thread do from the moment the
    application opens: at most one result waits on the queue; a result
    that waits there is the totals of the current worker; and as long
    as the current worker has not put its result (it is still before
    the end of its loop, or it died) the queue is empty, the Start and
    Export buttons are disabled and the table is empty. *)
Theorem one_result_per_run :
  forall evs,
    let g := handle_all initial_gui evs in
    (length (result_queue g) <= 1)%nat /\
    (forall result queue',
        result_queue g = result :: queue' ->
        queue' = [] /\
        exists w, worker g = Some w /\ result = totals (locals w)) /\
    (forall w,
        worker g = Some w ->
        pc w <> Finished ->
        result_queue g = [] /\ start_button g = DISABLED /\
        export_button g = DISABLED /\ tree g = []).
Proof.
  intros evs g.
  assert (Hinv : gui_inv g) by (by apply handle_all_inv).
  unfold gui_inv in Hinv.
  destruct (worker g) as [w|].
  - destruct Hinv as [_ Hpc]. destruct (pc w) eqn:Hpcw.
    all: try (destruct Hpc as (Hq & ? & ? & ?); rewrite Hq;
              split; [simpl; lia|]; split; [done|];
              by intros w' [= <-] _).
    destruct Hpc as [-> | ->].
    + split; [simpl; lia|]. split; [done|].
      intros w' [= <-] Hne. by rewrite Hpcw in Hne.
    + split; [simpl; lia|]. split.
      * intros result queue' [= <- <-]. split; [done|]. by exists w.
      * intros w' [= <-] Hne. by rewrite Hpcw in Hne.
  - rewrite Hinv. split; [simpl; lia|]. split; done.
Qed.

(** X9. A counter read that raises anything but the two caught errors
    ends the thread without a result.  From then on, unless the command
    of the disabled Start button is run, every event leaves the queue
    empty, the Start and Export buttons disabled and the table empty:
    the run never reports. *)
Theorem uncaught_error_leaves_no_result :
  (forall env w q proc rest what,
      pc w = InTick (proc :: rest) ->
      io_counters proc = Raises (OtherException what) ->
      run_step env w q = (at_pc w (Died (OtherException what)), q))
  /\ (forall evs0 w e evs,
         worker (handle_all initial_gui evs0) = Some w ->
         pc w = Died e ->
         Forall (fun ev => ev <> ClickStart) evs ->
         let g := handle_all (handle_all initial_gui evs0) evs in
         worker g = Some w /\ result_queue g = [] /\
         start_button g = DISABLED /\ export_button g = DISABLED /\
         tree g = []).
Proof.
  split.
  - intros env w q proc rest what Hpc Hio. unfold run_step, loop_body.
    by rewrite Hpc, Hio.
  - intros evs0 w e evs Hw Hpc Hns.
    pose proof (handle_all_inv evs0 initial_gui eq_refl) as Hinv.
    set (g0 := handle_all initial_gui evs0) in *.
    unfold gui_inv in Hinv. rewrite Hw, Hpc in Hinv.
    destruct Hinv as (_ & Hq & Hsb & Heb & Htree).
    assert (Hstuck : forall g,
               worker g = Some w /\ result_queue g = [] /\
               start_button g = DISABLED /\ export_button g = DISABLED /\
               tree g = [] ->
               worker (handle_all g evs) = Some w /\
               result_queue (handle_all g evs) = [] /\
               start_button (handle_all g evs) = DISABLED /\
               export_button (handle_all g evs) = DISABLED /\
               tree (handle_all g evs) = []).
    { clear -Hpc Hns. unfold handle_all.
      induction Hns as [|ev evs Hev _ IH]; intros g Hg; [done|].
      simpl. apply IH. destruct Hg as (Hgw & Hgq & ? & ? & ?).
      destruct ev; simpl; try done.
      - unfold stop_monitor. rewrite Hgw. unfold is_alive. by rewrite Hpc.
      - unfold _periodic_poll. by rewrite Hgq.
      - unfold worker_step. rewrite Hgw. unfold run_step. rewrite Hpc.
        simpl. by destruct w. }
    by apply Hstuck.
Qed.

Lemma uncaught_error_leaves_no_result_witness :
  run_step idle_env
    (at_pc mid_tick_worker
       (InTick [failing 4 "System" (OtherException "OSError")])) []
  = (at_pc (at_pc mid_tick_worker
              (InTick [failing 4 "System" (OtherException "OSError")]))
       (Died (OtherException "OSError")), []).
Proof.
  apply (proj1 uncaught_error_leaves_no_result idle_env
           (at_pc mid_tick_worker
              (InTick [failing 4 "System" (OtherException "OSError")]))
           [] (failing 4 "System" (OtherException "OSError")) [] "OSError");
    reflexivity.
Defined.

(** ** What the table shows *)

Lemma descending_app_le {A : Type} (key : A -> Q) (l1 l2 : list A) :
  descending key (l1 ++ l2) ->
  forall x y, x ∈ l1 -> y ∈ l2 -> (key y <= key x)%Q.
Proof.
  unfold descending. induction l1 as [|a l1 IH]; simpl; intros Hs x y Hx Hy.
  - by apply elem_of_nil in Hx.
  - apply StronglySorted_inv in Hs as [Hs Ha].
    apply elem_of_cons in Hx as [->|Hx]; [|by apply IH].
    rewrite Forall_forall in Ha. apply Ha, elem_of_app. by right.
Qed.

(** X10. The rows that the GUI shows and the rows that it leaves out
    are together the rows of the result, each once, and no row left out
    has a larger total than a row shown. *)
Theorem shown_rows_are_the_largest :
  forall (result : SampleResult) (n : Z),
  exists hidden,
    map row_of result ≡ₚ displayed result n ++ hidden /\
    forall r h, r ∈ displayed result n -> h ∈ hidden ->
                (total_mb h <= total_mb r)%Q.
Proof.
  intros result n. unfold displayed.
  destruct (slice_to_prefix n (sorted_rows result)) as [hidden Hsplit].
  exists hidden. split.
  - rewrite <- Hsplit. unfold sorted_rows. by rewrite sort_reverse_perm.
  - apply descending_app_le. rewrite <- Hsplit.
    apply sort_reverse_descending.
Qed.

(** X11. [_periodic_poll] cuts with the number in the Top N entry as it
    is, although [start_monitor] gave the worker at least 1: with zero
    in the entry the table gets no row, and with a negative number -k
    it gets all rows but the k with the smallest totals, none at all
    when there are no more than k. *)
Theorem nonpositive_top_n_drops_rows :
  forall g result queue',
    result_queue g = result :: queue' ->
    (top_var g = 0 -> tree (_periodic_poll g) = tree g) /\
    (top_var g < 0 ->
     tree (_periodic_poll g)
     = tree g ++ take (length result - Z.to_nat (- top_var g))
                   (sorted_rows result) /\
     Z.of_nat (length (displayed result (top_var g)))
     = Z.max 0 (Z.of_nat (length result) + top_var g)).
Proof.
  intros g result queue' Hq. unfold _periodic_poll. rewrite Hq. simpl.
  split.
  - intros ->. unfold displayed, slice_to. simpl. by rewrite app_nil_r.
  - intros Hn.
    assert (Hcut : displayed result (top_var g)
                   = take (length result - Z.to_nat (- top_var g))
                       (sorted_rows result)).
    { unfold displayed, slice_to, sorted_rows.
      rewrite sort_reverse_length, length_map.
      by destruct (Z.leb_spec 0 (top_var g)) as [H0|H0]; [lia|]. }
    rewrite Hcut. split; [done|].
    rewrite length_take. unfold sorted_rows.
    rewrite sort_reverse_length, length_map. lia.
Qed.

Lemma nonpositive_top_n_drops_rows_witness :
  tree (_periodic_poll (edit_top_var (-1) delivered_gui))
  = [] ++ take (2 - 1) (sorted_rows tie_result) /\
  Z.of_nat (length (displayed tie_result (-1))) = Z.max 0 (2 + -1).
Proof.
  apply (proj2 (nonpositive_top_n_drops_rows
                  (edit_top_var (-1) delivered_gui) tie_result [] eq_refl)).
  simpl. lia.
Defined.

(** ** The console script *)

Lemma console_body_total d proc d' nm :
  console_body d proc = Returns d' ->
  console_total nm d'
  = ((console_total nm d).1 + (raw_sum nm [proc]).1,
     (console_total nm d).2 + (raw_sum nm [proc]).2).
Proof.
  unfold console_body, console_total. simpl.
  destruct (io_counters proc) as [io|e].
  - intros [= <-]. case_decide as Hnm; simpl.
    + subst nm. rewrite !defaultdict_update_get. simpl. f_equal; lia.
    + rewrite !defaultdict_update_get_ne by done.
      destruct (default (0, 0) (dict_get nm d)). simpl. f_equal; lia.
  - intros Hd. assert (d' = d) as -> by (destruct e; [by injection Hd..|done]).
    destruct (default (0, 0) (dict_get nm d)). simpl. f_equal; lia.
Qed.

Lemma raw_sum_app nm procs1 procs2 :
  raw_sum nm (procs1 ++ procs2)
  = ((raw_sum nm procs1).1 + (raw_sum nm procs2).1,
     (raw_sum nm procs1).2 + (raw_sum nm procs2).2).
Proof.
  induction procs1 as [|proc procs1 IH]; simpl.
  - by destruct (raw_sum nm procs2).
  - rewrite IH. destruct (io_counters proc); [|done].
    case_decide; simpl; [f_equal; lia | done].
Qed.

Lemma console_observe_total procs : forall d d' nm,
  console_observe d procs = Returns d' ->
  console_total nm d'
  = ((console_total nm d).1 + (raw_sum nm procs).1,
     (console_total nm d).2 + (raw_sum nm procs).2).
Proof.
  induction procs as [|proc procs IH]; intros d d' nm Hobs.
  - simpl in *. injection Hobs as <-.
    destruct (console_total nm d). simpl. f_equal; lia.
  - simpl in Hobs.
    destruct (console_body d proc) as [d1|] eqn:Hbody; [|done].
    rewrite (IH _ _ nm Hobs), (console_body_total _ _ _ nm Hbody).
    change (proc :: procs) with ([proc] ++ procs). rewrite raw_sum_app.
    simpl. f_equal; lia.
Qed.

Lemma console_observe_ticks_concat d ticks :
  console_observe_ticks d ticks = console_observe d (concat ticks).
Proof.
  revert d. induction ticks as [|procs ticks IH]; intros d; simpl; [done|].
  assert (Happ : forall l1 l2 d0,
             console_observe d0 (l1 ++ l2)
             = match console_observe d0 l1 with
               | Returns d1 => console_observe d1 l2
               | Raises e => Raises e
               end).
  { induction l1 as [|x l1 IH1]; intros l2 d0; simpl; [done|].
    destruct (console_body d0 x); [apply IH1 | done]. }
  rewrite Happ. destruct (console_observe d procs); [apply IH | done].
Qed.

Lemma raw_sum_replicate nm proc io n :
  io_counters proc = Returns io ->
  info_name proc = nm ->
  raw_sum nm (concat (replicate n [proc]))
  = (Z.of_nat n * read_bytes io, Z.of_nat n * write_bytes io).
Proof.
  intros Hio Hnm. induction n as [|n IH]; [done|].
  cbn [replicate concat app raw_sum]. rewrite IH, Hio.
  rewrite decide_True by done. simpl. f_equal; lia.
Qed.

(** X12. The console script adds up raw cumulative counters: after any
    ticks the total of a process name is the sum of the counters of all
    successful reads of processes with that name.  A process whose
    counters stay at (r, w) is therefore credited n * r and n * w after
    n ticks, although it moved no byte. *)
Theorem console_totals_are_raw_sums :
  (forall ticks d nm,
      console_observe_ticks [] ticks = Returns d ->
      console_total nm d = raw_sum nm (concat ticks))
  /\ (forall n proc io,
         io_counters proc = Returns io ->
         exists d,
           console_observe_ticks [] (replicate n [proc]) = Returns d /\
           console_total (info_name proc) d
           = (Z.of_nat n * read_bytes io, Z.of_nat n * write_bytes io)).
Proof.
  split.
  - intros ticks d nm Hobs. rewrite console_observe_ticks_concat in Hobs.
    rewrite (console_observe_total _ _ _ nm Hobs).
    unfold console_total. simpl. by destruct (raw_sum nm (concat ticks)).
  - intros n proc io Hio.
    assert (Hret : forall k d0, exists d,
               console_observe_ticks d0 (replicate k [proc]) = Returns d).
    { induction k as [|k IH]; intros d0; simpl; [by eexists|].
      unfold console_body. rewrite Hio. apply IH. }
    destruct (Hret n []) as [d Hd]. exists d. split; [done|].
    rewrite console_observe_ticks_concat in Hd.
    rewrite (console_observe_total _ _ _ (info_name proc) Hd).
    rewrite (raw_sum_replicate _ _ io) by done. done.
Qed.

Lemma console_totals_are_raw_sums_witness :
  exists d,
    console_observe_ticks [] (replicate 3 [reading 4242 "a.exe" 100 50])
    = Returns d /\
    console_total (Some "a.exe") d = (3 * 100, 3 * 50).
Proof.
  apply (proj2 console_totals_are_raw_sums 3%nat
           (reading 4242 "a.exe" 100 50)
           {| read_bytes := 100; write_bytes := 50 |}).
  reflexivity.
Defined.

(** ** What the console script prints *)





(** ** Export *)

Lemma handle_last_result_ranked g ev :
  last_result_ranked g -> last_result_ranked (handle g ev).
Proof.
  unfold last_result_ranked. destruct ev; simpl; try done.
  - unfold start_monitor. by destruct (worker_alive g).
  - unfold stop_monitor. destruct (worker g) as [w|]; [|done].
    by destruct (is_alive w).
  - unfold _periodic_poll. destruct (result_queue g); [done|]. simpl.
    intros _. apply descending_slice_to, sort_reverse_descending.
  - unfold worker_step. destruct (worker g) as [w|]; [|done].
    by destruct (run_step env w (result_queue g)).
Qed.

Lemma handle_all_last_result_ranked evs : forall g,
  last_result_ranked g -> last_result_ranked (handle_all g evs).
Proof.
  unfold handle_all. induction evs as [|ev evs IH]; intros g Hg; [done|].
  simpl. by apply IH, handle_last_result_ranked.
Qed.

(** X14. Whatever happened in the application before, [export_json]
    writes a file only when a path was chosen and the write did not
    raise, and what it writes is the non-empty list of rows kept from
    the last display, in descending order of their totals.  Right after
    a result has been displayed these are the rows of the table, cut
    with the Top N of that moment; a later edit of the entry does not
    change them, and cancelling the dialog writes nothing. *)
Theorem export_writes_displayed_rows :
  (forall evs path written p data,
      json_dump p data ∈ export_json (handle_all initial_gui evs) path written ->
      p = path /\ path <> "" /\ written = Returns () /\ data <> [] /\
      _last_result (handle_all initial_gui evs) = Some data /\
      descending total_mb data)
  /\ (forall g result queue' path n,
         result_queue g = result :: queue' ->
         displayed result (top_var g) <> [] ->
         path <> "" ->
         export_json (edit_top_var n (_periodic_poll g)) path (Returns ())
         = [asksaveasfilename;
            json_dump path (displayed result (top_var g));
            export_showinfo "Export"
              ("Exported " +:+ pretty (length (displayed result (top_var g)))
               +:+ " rows to " +:+ path)] /\
         forall written,
           export_json (_periodic_poll g) "" written = [asksaveasfilename]).
Proof.
  split.
  - intros evs path written p data.
    pose proof (handle_all_last_result_ranked evs initial_gui I) as Hranked.
    set (g := handle_all initial_gui evs) in *.
    unfold last_result_ranked in Hranked. unfold export_json.
    destruct (_last_result g) as [[|row rows]|]; simpl.
    + rewrite list_elem_of_singleton. done.
    + case_decide as Hpath.
      * rewrite list_elem_of_singleton. done.
      * destruct written as [[]|e];
          rewrite !elem_of_cons, elem_of_nil; naive_solver.
    + rewrite list_elem_of_singleton. done.
  - intros g result queue' path n Hq Hne Hpath.
    unfold _periodic_poll. rewrite Hq. unfold export_json. simpl.
    destruct (displayed result (top_var g)) as [|row rows]; [done|].
    split; [by rewrite decide_False | done].
Qed.

Lemma export_writes_displayed_rows_witness :
  export_json (edit_top_var 0 (_periodic_poll delivered_gui)) "out.json"
    (Returns ())
  = [asksaveasfilename;
     json_dump "out.json" (displayed tie_result 1);
     export_showinfo "Export"
       ("Exported " +:+ pretty (length (displayed tie_result 1))
        +:+ " rows to " +:+ "out.json")] /\
  forall written,
    export_json (_periodic_poll delivered_gui) "" written = [asksaveasfilename].
Proof.
  apply (proj2 export_writes_displayed_rows delivered_gui tie_result []
           "out.json" 0); [reflexivity | | done].
  intros Hnil. by apply (f_equal length) in Hnil.
Defined.

(** ** Display names *)

(** X15. The name under which a process is accounted is never empty: it
    is the name that psutil reports when there is a non-empty one, and
    otherwise the placeholder made of "pid:" and the pid in decimal, so
    that two processes without a name get the same placeholder only if
    they have the same pid. *)
Theorem display_name_is_never_empty :
  (forall proc, display_name proc <> "")
  /\ (forall proc s,
         info_name proc = Some s -> s <> "" -> display_name proc = s)
  /\ (forall proc1 proc2,
         info_name proc1 = None \/ info_name proc1 = Some "" ->
         info_name proc2 = None \/ info_name proc2 = Some "" ->
         display_name proc1 = display_name proc2 ->
         info_pid proc1 = info_pid proc2).
Proof.
  repeat apply conj.
  - intros proc. unfold display_name.
    destruct (info_name proc) as [s|]; [case_decide|]; done.
  - intros proc s Hs Hne. unfold display_name. rewrite Hs.
    by rewrite decide_False.
  - intros proc1 proc2 H1 H2. unfold display_name.
    assert (Hinj : "pid:" +:+ pretty (info_pid proc1)
                   = "pid:" +:+ pretty (info_pid proc2) ->
                   info_pid proc1 = info_pid proc2).
    { intros Heq. by apply (inj pretty), (inj (String.app "pid:")). }
    destruct H1 as [-> | ->], H2 as [-> | ->]; simpl; exact Hinj.
Qed.

Lemma display_name_is_never_empty_witness :
  display_name (reading 4242 "a.exe" 100 50) = "a.exe".
Proof.
  apply (proj1 (proj2 display_name_is_never_empty)
           (reading 4242 "a.exe" 100 50) "a.exe"); done.
Defined.
